(** * Ninja Game Simulator: a shallow embedding of [main.js]

    The development follows the classes of [main.js] leaf-first:
    [AssetLoader], [AnimationPlayer], [PlayerController], [InputManager],
    [Renderer], [Game] and the [boot] sequence.

    Conventions of the embedding.
    - JavaScript numbers that carry time or positions (milliseconds, pixels)
      are exact rationals ([Q]); rounding of IEEE doubles is not modelled.
      Numbers that index arrays or count things are [nat].
    - JavaScript objects used as dictionaries ([Record<string, _>], [Map])
      are [gmap string _]; properties inherited from [Object.prototype] are
      not modelled.
    - A [while] loop is a function with a budget of iterations (fuel) that
      returns [None] when the budget is used up; termination is proved
      separately, as the existence of a budget from which the result no
      longer changes.
    - [bus.emit] is an output: every operation returns the events it
      emitted, in order. *)

From Stdlib Require Import ZArith QArith Qround Qminmax Lia Lqa.
From stdpp Require Import base option list strings pretty gmap.

Local Open Scope nat_scope.

(** ** Values shared by the classes *)

(** An [HTMLImageElement]: [img_id] is the identity of the element (the
    number of elements created before it), [img_src] its [src]. *)
Record Image : Type := mkImage { img_id : nat; img_src : string }.

#[global] Instance Image_eq_dec : EqDecision Image.
Proof. solve_decision. Defined.

(** What a JavaScript expression of type [HTMLImageElement | null] can
    produce at run time, with [undefined] for a read past the end of an
    array. *)
Inductive frame_ref : Type :=
| Null
| Undefined
| Frame (img : Image).

(** ** AnimationPlayer *)

Module AnimationPlayer.

Record t : Type := mk {
  animations : gmap string (list Image);
  frameDurations : gmap string Q;
  current : string;
  loop : bool;
  frameIndex : nat;
  accumulator : Q;
  finished : bool
}.

(** [constructor(animations, frameDurationMsByAnim)] *)
Definition new (anims : gmap string (list Image)) (durs : gmap string Q) : t :=
  mk anims durs "idle" true 0 0%Q false.

(** [play(animation, { loop })]. An array is truthy even when it is
    empty, so the first guard is a test for a missing key. *)
Definition play (animation : string) (lp : bool) (p : t) : t :=
  match animations p !! animation with
  | None => p
  | Some _ =>
      if String.eqb (current p) animation && Bool.eqb (loop p) lp
         && negb (finished p)
      then p
      else mk (animations p) (frameDurations p) animation lp 0 0%Q false
  end.

Definition with_accumulator (a : Q) (p : t) : t :=
  mk (animations p) (frameDurations p) (current p) (loop p)
     (frameIndex p) a (finished p).

Definition with_frameIndex (i : nat) (p : t) : t :=
  mk (animations p) (frameDurations p) (current p) (loop p)
     i (accumulator p) (finished p).

Definition with_finished (b : bool) (p : t) : t :=
  mk (animations p) (frameDurations p) (current p) (loop p)
     (frameIndex p) (accumulator p) b.

(** The [while (this.accumulator >= frameDuration)] loop of [update];
    [len] is [frames.length]. *)
Fixpoint advance (fuel : nat) (len : nat) (frameDuration : Q) (p : t)
  : option t :=
  if Qle_bool frameDuration (accumulator p) then
    match fuel with
    | O => None
    | S fuel' =>
        let p1 := with_frameIndex (S (frameIndex p))
                    (with_accumulator (accumulator p - frameDuration)%Q p) in
        if len <=? frameIndex p1 then
          if loop p1 then advance fuel' len frameDuration (with_frameIndex 0 p1)
          else Some (with_finished true (with_frameIndex (len - 1) p1))
        else advance fuel' len frameDuration p1
    end
  else Some p.

(** [this.frameDurations[this.current] ?? 100] *)
Definition frameDuration (p : t) : Q :=
  default 100%Q (frameDurations p !! current p).

(** [update(dtMs)] *)
Definition update (fuel : nat) (dtMs : Q) (p : t) : option t :=
  match animations p !! current p with
  | None => Some p
  | Some frames =>
      if length frames =? 0 then Some p
      else advance fuel (length frames) (frameDuration p)
             (with_accumulator (accumulator p + dtMs)%Q p)
  end.

(** [getFrame()] *)
Definition getFrame (p : t) : frame_ref :=
  match animations p !! current p with
  | None => Null
  | Some frames =>
      if length frames =? 0 then Null
      else match frames !! frameIndex p with
           | Some img => Frame img
           | None => Undefined
           end
  end.

End AnimationPlayer.

(** ** EventBus *)

(** The events that travel on the bus: the name given to [emit] together
  with its payload. [Action None] is [emit("action")] with no payload. *)
Inductive BusEvent : Type :=
| Action (action : option string)
| Reset
| StateChanged (s : string)
| QueueChanged (q : list string).

Definition eventName (e : BusEvent) : string :=
match e with
| Action _ => "action"
| Reset => "reset"
| StateChanged _ => "stateChanged"
| QueueChanged _ => "queueChanged"
end.

(** The closures that the program registers on the bus. *)
Inductive handler : Type :=
| OnAction      (* PlayerController._setupBusHandlers, "action" *)
| OnReset       (* PlayerController._setupBusHandlers, "reset" *)
| HudState      (* Game._setupHud, "stateChanged" *)
| HudQueue.     (* Game._setupHud, "queueChanged" *)

#[global] Instance handler_eq_dec : EqDecision handler.
Proof. solve_decision. Defined.

Module EventBus.

(** [Map<string, Set<Function>>]; a [Set] iterates in insertion order and
    holds a function at most once. *)
Definition t : Type := gmap string (list handler).

Definition new : t := ∅.

Definition on (name : string) (h : handler) (b : t) : t :=
  match b !! name with
  | None => <[name := [h]]> b
  | Some hs => if decide (h ∈ hs) then b else <[name := hs ++ [h]]> b
  end.

Definition off (name : string) (h : handler) (b : t) : t :=
  match b !! name with
  | None => b
  | Some hs => <[name := filter (λ h', h' ≠ h) hs]> b
  end.

(** The handlers that [emit(eventName, payload)] calls, in order. *)
Definition emit (name : string) (b : t) : list handler :=
  default [] (b !! name).

End EventBus.

(** ** AssetLoader *)

(** [new Error(message)] *)
Record Error : Type := mkError { message : string }.

(** A promise once it is settled. *)
Inductive settled (A : Type) : Type :=
| Resolved (v : A)
| Rejected (e : Error).
Arguments Resolved {A} v.
Arguments Rejected {A} e.

Module AssetLoader.

(** [created] counts the [Image] objects constructed by this loader, and
    gives the next one its identity; [requests] lists the URLs assigned to
    an [img.src], oldest first. Both record what the loader did. *)
Record t : Type := mk {
  basePath : string;
  cache : gmap string Image;
  created : nat;
  requests : list string
}.

(** [constructor({ basePath = "images" } = {})] *)
Definition new (base : option string) : t :=
  mk (default "images" base) ∅ 0 [].

(** What [loadImage] hands back before any image event fires: a promise
    that is already resolved, or one that waits for the events of [img]. *)
Inductive promise : Type :=
| Ready (img : Image)
| Pending (img : Image).

(** The synchronous part of [loadImage(url)]. *)
Definition loadImage (url : string) (l : t) : promise * t :=
  match cache l !! url with
  | Some img => (Ready img, l)
  | None =>
      let img := mkImage (created l) url in
      (Pending img,
       mk (basePath l) (cache l) (S (created l)) (requests l ++ [url]))
  end.

(** [img.onload] *)
Definition onload (url : string) (img : Image) (l : t) : settled Image * t :=
  (Resolved img,
   mk (basePath l) (<[url := img]> (cache l)) (created l) (requests l)).

(** [img.onerror] *)
Definition onerror (url : string) (l : t) : settled Image * t :=
  (Rejected (mkError ("Failed to load image: " +:+ url)), l).

(** [await this.loadImage(url)]: the call followed by the one event that
    the network delivers for the image; [net img] tells whether the load
    of [img] succeeds. *)
Definition await_loadImage (net : Image → bool) (url : string) (l : t)
  : settled Image * t :=
  match loadImage url l with
  | (Ready img, l1) => (Resolved img, l1)
  | (Pending img, l1) =>
      if net img then onload url img l1 else onerror url l1
  end.

(** The state threaded through [loadAnimations]: the loader and the calls
    of [onProgress(done, total)] made so far, oldest first. *)
Record LoadState : Type := mkLoadState {
  loader : t;
  progress : list (nat * nat)
}.

(** Computations of [loadAnimations]: state passing with rejection. *)
Definition M (A : Type) : Type := LoadState → settled A * LoadState.

Definition ret {A} (a : A) : M A := λ s, (Resolved a, s).

Definition bind {A B} (m : M A) (k : A → M B) : M B :=
  λ s, match m s with
       | (Resolved a, s1) => k a s1
       | (Rejected e, s1) => (Rejected e, s1)
       end.

Notation "x <~ m ;; k" := (bind m (λ x, k))
  (at level 100, m at next level, right associativity).

Definition awaitImage (net : Image → bool) (url : string) : M Image :=
  λ s, let '(r, l1) := await_loadImage net url (loader s) in
       (r, mkLoadState l1 (progress s)).

Definition onProgress (done total : nat) : M unit :=
  λ s, (Resolved tt, mkLoadState (loader s) (progress s ++ [(done, total)])).

Definition frameUrl (base animation : string) (frameNumber : nat) : string :=
  base +:+ "/" +:+ animation +:+ "/" +:+ pretty frameNumber +:+ ".png".

(** The inner [for] loop over the frame numbers of one animation; the
    result carries the value of [done] after the loop. *)
Fixpoint loadFrames (net : Image → bool) (base animation : string)
    (frames : list nat) (done total : nat) : M (list Image * nat) :=
  match frames with
  | [] => ret ([], done)
  | frameNumber :: rest =>
      img <~ awaitImage net (frameUrl base animation frameNumber) ;;
      _ <~ onProgress (done + 1) total ;;
      r <~ loadFrames net base animation rest (done + 1) total ;;
      ret (img :: r.1, r.2)
  end.

(** The outer [for] loop over [Object.keys(framesByAnimation)]. An object
    whose keys are names, not array indices, enumerates them in the order
    they were written, so [framesByAnimation] is an association list. *)
Fixpoint loadEach (net : Image → bool) (base : string)
    (todo : list (string * list nat)) (done total : nat)
    (result : gmap string (list Image)) : M (gmap string (list Image)) :=
  match todo with
  | [] => ret result
  | (animation, frames) :: rest =>
      r <~ loadFrames net base animation frames done total ;;
      loadEach net base rest r.2 total (<[animation := r.1]> result)
  end.

(** [loadAnimations(framesByAnimation, onProgress)] *)
Definition loadAnimations (net : Image → bool)
    (framesByAnimation : list (string * list nat))
  : M (gmap string (list Image)) :=
  λ s,
    let total := foldl (λ sum a, sum + length a.2) 0 framesByAnimation in
    loadEach net (basePath (loader s)) framesByAnimation 0 total ∅ s.

End AssetLoader.

(** ** PlayerController *)

(** The second argument of [PlayerController.update]. *)
Record World : Type := mkWorld { worldWidth : Q; worldHeight : Q }.

Module PlayerController.

(** [anim] is the animation player handed to the constructor; the game
    keeps a second reference to the same object, so every change made
    through [anim] is the change the game sees. *)
Record t : Type := mk {
  anim : AnimationPlayer.t;
  state : string;
  queue : list string;
  x : Q;
  y : Q;
  speed : Q
}.

(** [constructor({ bus, animationPlayer })], without the registration of
    the two bus handlers, which is in [Game.new]. *)
Definition new (animationPlayer : AnimationPlayer.t) : t :=
  mk animationPlayer "idle" [] 0%Q 0%Q 140%Q.

Definition with_anim (a : AnimationPlayer.t) (pc : t) : t :=
  mk a (state pc) (queue pc) (x pc) (y pc) (speed pc).

Definition with_state (s : string) (pc : t) : t :=
  mk (anim pc) s (queue pc) (x pc) (y pc) (speed pc).

Definition with_queue (q : list string) (pc : t) : t :=
  mk (anim pc) (state pc) q (x pc) (y pc) (speed pc).

Definition with_position (x' y' : Q) (pc : t) : t :=
  mk (anim pc) (state pc) (queue pc) x' y' (speed pc).

(** [_enterState(state)] *)
Definition _enterState (s : string) (pc : t) : t * list BusEvent :=
  let pc1 := with_state s pc in
  if String.eqb s "idle"
  then (with_anim (AnimationPlayer.play "idle" true (anim pc1)) pc1,
        [StateChanged s])
  else (with_anim (AnimationPlayer.play s false (anim pc1)) pc1,
        [StateChanged s]).

(** [_consumeNextAction()]; [shift] on an empty array gives [undefined]
    and leaves the array empty. *)
Definition _consumeNextAction (pc : t) : option string * t * list BusEvent :=
  (head (queue pc), with_queue (tail (queue pc)) pc,
   [QueueChanged (tail (queue pc))]).

(** The handler of "action". An absent payload and the empty string are
    the falsy payloads. *)
Definition on_action (action : option string) (pc : t) : t * list BusEvent :=
  match action with
  | None => (pc, [])
  | Some EmptyString => (pc, [])
  | Some a =>
      let q1 := if 12 <? length (queue pc) then tail (queue pc) else queue pc in
      let q2 := q1 ++ [a] in
      (with_queue q2 pc, [QueueChanged q2])
  end.

(** The handler of "reset". *)
Definition on_reset (pc : t) : t * list BusEvent :=
  let pc1 := with_position 0%Q 0%Q (with_queue [] pc) in
  let '(pc2, ev) := _enterState "idle" pc1 in
  (pc2, ev ++ [QueueChanged (queue pc2)]).

(** The first [if] of [update]: a finished one-shot gives way to the next
    queued action, or to idle. *)
Definition afterOneShot (pc : t) : t * list BusEvent :=
  if negb (String.eqb (state pc) "idle") && AnimationPlayer.finished (anim pc)
  then
    let '(next, pc1, ev1) := _consumeNextAction pc in
    let '(pc2, ev2) := _enterState (default "idle" next) pc1 in
    (pc2, ev1 ++ ev2)
  else (pc, []).

(** The second [if] of [update]. The queue is not empty there, so [next]
    is its head. *)
Definition startQueued (pc : t) : t * list BusEvent :=
  if String.eqb (state pc) "idle" && (0 <? length (queue pc))
  then
    match _consumeNextAction pc with
    | (Some next, pc1, ev1) =>
        let '(pc2, ev2) := _enterState next pc1 in
        (pc2, ev1 ++ ev2)
    | (None, _, _) => (pc, [])
    end
  else (pc, []).

(** Movement and clamping to the world bounds. *)
Definition move (dtMs : Q) (world : World) (pc : t) : t :=
  let dtSec := (dtMs / 1000)%Q in
  let x1 := if String.eqb (state pc) "forward"
            then (x pc + speed pc * dtSec)%Q else x pc in
  let x2 := if String.eqb (state pc) "backward"
            then (x1 - speed pc * dtSec)%Q else x1 in
  let pad := 40%Q in
  with_position
    (Qmax (- worldWidth world / 2 + pad) (Qmin (worldWidth world / 2 - pad) x2))
    (Qmax (- worldHeight world / 2 + pad)
          (Qmin (worldHeight world / 2 - pad) (y pc)))
    pc.

(** [update(dtMs, world)] *)
Definition update (fuel : nat) (dtMs : Q) (world : World) (pc : t)
  : option (t * list BusEvent) :=
  let '(pc1, ev1) := afterOneShot pc in
  let '(pc2, ev2) := startQueued pc1 in
  let pc3 := move dtMs world pc2 in
  a ← AnimationPlayer.update fuel dtMs (anim pc3);
  Some (with_anim a pc3, ev1 ++ ev2).

End PlayerController.

(** ** InputManager *)

(** The document as the program sees it: the [textContent] of every element
    that has an id. [getElementById(id)] finds an element exactly when [id]
    is a key. *)
Definition Document : Type := gmap string string.

(** The DOM events that the input manager listens to. *)
Inductive DomEvent : Type :=
| KeyDown (key : string)
| Click (id : string).

Module InputManager.

(** The click listeners added by [_setupButtons]: the id of the element and
    the event its listener emits. *)
Record t : Type := mk { clickListeners : list (string * BusEvent) }.

(** The object [map] of [_setupButtons], in the order of its keys. *)
Definition map : list (string * string) :=
  [("kick", "kick"); ("punch", "punch"); ("forward", "forward");
   ("backward", "backward"); ("block", "block")].

(** [_setupButtons()] *)
Definition _setupButtons (document : gmap string string)
  : list (string * BusEvent) :=
  omap (λ entry : string * string,
          match document !! entry.1 with
          | None => None
          | Some _ => Some (entry.1, Action (Some entry.2))
          end) map
  ++ match document !! "reset" with
     | None => []
     | Some _ => [("reset", Reset)]
     end.

(** The keydown listener of [_setupKeyboard]: whether it calls
    [preventDefault], and what it emits. *)
Definition keydown (key : string) : bool * list BusEvent :=
  (bool_decide (key ∈ ["ArrowUp"; "ArrowDown"; "ArrowLeft"; "ArrowRight"; " "]),
   if String.eqb key "ArrowUp" then [Action (Some "kick")]
   else if String.eqb key "ArrowDown" then [Action (Some "punch")]
   else if String.eqb key "ArrowRight" then [Action (Some "forward")]
   else if String.eqb key "ArrowLeft" then [Action (Some "backward")]
   else if String.eqb key " " then [Action (Some "block")]
   else []).

(** [constructor({ bus })] *)
Definition new (document : gmap string string) : t :=
  mk (_setupButtons document).

(** The events emitted on the bus when the browser delivers [ev]. *)
Definition emitted (im : t) (ev : DomEvent) : list BusEvent :=
  match ev with
  | KeyDown key => (keydown key).2
  | Click id =>
      (filter (λ l : string * BusEvent, l.1 = id) (clickListeners im)).*2
  end.

End InputManager.

(** ** Renderer *)

(** [el.textContent = s] for the element found by [getElementById(id)],
    guarded by [if (el)]. *)
Definition setText (id s : string) (document : gmap string string)
  : gmap string string :=
  match document !! id with
  | None => document
  | Some _ => <[id := s]> document
  end.

(** [Math.round] *)
Definition round (q : Q) : Z := Qfloor (q + (1 # 2)).

Module Renderer.

(** The writes to the canvas and the calls on its 2d context. *)
Inductive CanvasCall : Type :=
| SetWidth (w : Z)
| SetHeight (h : Z)
| SetTransform (a b c d e f : Q)
| Scale (sx sy : Q)
| ClearRect (cx cy cw ch : Q)
| DrawImage (img : Image) (dx dy dw dh : Q).

(** What [resize] reads from the browser: the size of the bounding
    rectangle of the canvas and [window.devicePixelRatio]. *)
Record Viewport : Type := mkViewport {
  rectWidth : Q;
  rectHeight : Q;
  devicePixelRatio : option Q
}.

(** [canvas] lists the calls made on the canvas, oldest first. *)
Record t : Type := mk {
  logicalSize : Q;
  _lastW : Z;
  _lastH : Z;
  canvas : list CanvasCall
}.

(** [resize()] *)
Definition resize (v : Viewport) (r : t) : t :=
  let ratio := match devicePixelRatio v with
               | None => 1%Q
               | Some d => if Qeq_bool d 0 then 1%Q else d
               end in
  let dpr := Qmax 1 (Qmin 2 ratio) in
  let width := Z.max 1 (round (rectWidth v * dpr)) in
  let height := Z.max 1 (round (rectHeight v * dpr)) in
  if ((width =? _lastW r) && (height =? _lastH r))%Z then r
  else
    let scale := (inject_Z (Z.min width height) / logicalSize r)%Q in
    mk (logicalSize r) width height
       (canvas r ++ [SetWidth width; SetHeight height;
                     SetTransform 1 0 0 1 0 0; Scale scale scale]).

(** [constructor(canvas)] *)
Definition new (v : Viewport) : t := resize v (mk 500%Q 0%Z 0%Z []).

(** The argument of [draw]. *)
Record Sprite : Type := mkSprite { frame : frame_ref; sx : Q; sy : Q }.

(** [draw(sprite)] *)
Definition draw (sprite : Sprite) (r : t) : t :=
  let size := logicalSize r in
  let cleared := canvas r ++ [ClearRect 0 0 size size] in
  match frame sprite with
  | Frame img =>
      let w := size in
      let h := size in
      let centerX := (size / 2 + sx sprite)%Q in
      let centerY := (size / 2 + sy sprite)%Q in
      mk (logicalSize r) (_lastW r) (_lastH r)
         (cleared ++ [DrawImage img (centerX - w / 2)%Q (centerY - h / 2)%Q w h])
  | _ => mk (logicalSize r) (_lastW r) (_lastH r) cleared
  end.

End Renderer.

(** ** Game *)

Module Game.

(** The calls that one [_tick] makes on the player and on the renderer. *)
Inductive Call : Type :=
| CallUpdate (dtMs : Q) (world : World)
| CallResize
| CallDraw (sprite : Renderer.Sprite).

(** [this.anim] is [player.anim]: both fields hold the same object.
    [frameRequests] counts the calls of [requestAnimationFrame]. *)
Record t : Type := mk {
  bus : gmap string (list handler);
  input : InputManager.t;
  renderer : Renderer.t;
  fixedDt : Q;
  accumulator : Q;
  lastTs : Q;
  fps : Q;
  _fpsFrames : nat;
  _fpsTime : Q;
  player : PlayerController.t;
  document : gmap string string;
  frameRequests : nat
}.

Definition anim (g : t) : AnimationPlayer.t := PlayerController.anim (player g).

Definition with_player (pc : PlayerController.t) (g : t) : t :=
  mk (bus g) (input g) (renderer g) (fixedDt g) (accumulator g) (lastTs g)
     (fps g) (_fpsFrames g) (_fpsTime g) pc (document g) (frameRequests g).

Definition with_document (d : gmap string string) (g : t) : t :=
  mk (bus g) (input g) (renderer g) (fixedDt g) (accumulator g) (lastTs g)
     (fps g) (_fpsFrames g) (_fpsTime g) (player g) d (frameRequests g).

Definition with_accumulator (a : Q) (g : t) : t :=
  mk (bus g) (input g) (renderer g) (fixedDt g) a (lastTs g)
     (fps g) (_fpsFrames g) (_fpsTime g) (player g) (document g)
     (frameRequests g).

(** The table [frameDurations] of the constructor. *)
Definition frameDurations : gmap string Q :=
  <["idle" := 120%Q]> (<["kick" := 90%Q]> (<["punch" := 90%Q]>
  (<["forward" := 80%Q]> (<["backward" := 80%Q]> (<["block" := 100%Q]> ∅))))).

(** The separator of [q.join] in [renderQueue], byte for byte. *)
Definition arrow : string :=
  " " +:+ String.string_of_list_ascii
            (List.map Ascii.ascii_of_nat [195; 162; 226; 128; 160; 226; 128; 153])
      +:+ " ".

(** [renderQueue(q)] of [_setupHud] *)
Definition renderQueue (q : list string) (d : gmap string string)
  : gmap string string :=
  setText "hudQueue"
    (match q with [] => "(empty)" | _ => String.concat arrow q end) d.

(** The two listeners of [_setupHud] write to the document; a handler
    called with another event than its own changes nothing. *)
Definition hudHandler (h : handler) (e : BusEvent) (d : gmap string string)
  : gmap string string :=
  match h, e with
  | HudState, StateChanged s => setText "hudState" s d
  | HudQueue, QueueChanged q => renderQueue q d
  | _, _ => d
  end.

(** [bus.emit] for an event that the player emits from inside one of its
    methods. *)
Definition deliver (g : t) (e : BusEvent) : t :=
  foldl (λ g' h, with_document (hudHandler h e (document g')) g') g
        (EventBus.emit (eventName e) (bus g)).

(** [bus.emit] for an event that comes from outside the player. *)
Definition emit (e : BusEvent) (g : t) : t :=
  foldl (λ g' h,
           match h, e with
           | OnAction, Action a =>
               let '(pc, evs) := PlayerController.on_action a (player g') in
               foldl deliver (with_player pc g') evs
           | OnReset, Reset =>
               let '(pc, evs) := PlayerController.on_reset (player g') in
               foldl deliver (with_player pc g') evs
           | _, _ => with_document (hudHandler h e (document g')) g'
           end) g
        (EventBus.emit (eventName e) (bus g)).

(** [constructor({ canvas, animations })]; [now] is [performance.now()]. *)
Definition new (v : Renderer.Viewport) (now : Q) (d : gmap string string)
    (animations : gmap string (list Image)) : t :=
  let input := InputManager.new d in
  let renderer := Renderer.new v in
  let a := AnimationPlayer.new animations frameDurations in
  let bus1 := EventBus.on "reset" OnReset
                (EventBus.on "action" OnAction EventBus.new) in
  let g0 := mk bus1 input renderer (1000 / 60)%Q 0%Q now 0%Q 0 0%Q
               (PlayerController.new a) d 0 in
  let '(pc, evs) := PlayerController._enterState "idle" (player g0) in
  let g1 := foldl deliver (with_player pc g0) evs in
  let bus2 := EventBus.on "queueChanged" HudQueue
                (EventBus.on "stateChanged" HudState (bus g1)) in
  mk bus2 input renderer (fixedDt g1) (accumulator g1) (lastTs g1) (fps g1)
     (_fpsFrames g1) (_fpsTime g1) (player g1)
     (renderQueue (PlayerController.queue (player g1))
        (setText "hudState" (PlayerController.state (player g1)) (document g1)))
     0.

(** [start()] *)
Definition start (g : t) : t :=
  mk (bus g) (input g) (renderer g) (fixedDt g) (accumulator g) (lastTs g)
     (fps g) (_fpsFrames g) (_fpsTime g) (player g) (document g)
     (S (frameRequests g)).

(** The [while (this.accumulator >= this.fixedDt)] loop of [_tick]; [inner]
    is the budget of every [player.update] it calls. *)
Fixpoint fixedUpdates (fuel inner : nat) (g : t) : option (t * list Call) :=
  if Qle_bool (fixedDt g) (accumulator g) then
    match fuel with
    | O => None
    | S fuel' =>
        let world := mkWorld (Renderer.logicalSize (renderer g))
                             (Renderer.logicalSize (renderer g)) in
        '(pc, evs) ← PlayerController.update inner (fixedDt g) world (player g);
        let g1 := foldl deliver (with_player pc g) evs in
        let g2 := with_accumulator (accumulator g1 - fixedDt g1)%Q g1 in
        '(g3, calls) ← fixedUpdates fuel' inner g2;
        Some (g3, CallUpdate (fixedDt g) world :: calls)
    end
  else Some (g, []).

(** [_setFps(fps)]: [fps.toFixed(0)] of a number that is not negative. *)
Definition _setFps (f : Q) (d : gmap string string) : gmap string string :=
  setText "hudFps" (pretty (round f)) d.

(** [_tick(ts)]; [v] is what the browser reports to [resize] during this
    tick. *)
Definition _tick (fuel : nat) (ts : Q) (v : Renderer.Viewport) (g : t)
  : option (t * list Call) :=
  let dt := (ts - lastTs g)%Q in
  let clampedDt := Qmin 100 (Qmax 0 dt) in
  let g1 := mk (bus g) (input g) (renderer g) (fixedDt g)
               (accumulator g + clampedDt)%Q ts (fps g) (_fpsFrames g)
               (_fpsTime g) (player g) (document g) (frameRequests g) in
  '(g2, calls) ← fixedUpdates fuel fuel g1;
  let r1 := Renderer.resize v (renderer g2) in
  let sprite := Renderer.mkSprite (AnimationPlayer.getFrame (anim g2))
                  (PlayerController.x (player g2))
                  (PlayerController.y (player g2)) in
  let r2 := Renderer.draw sprite r1 in
  let frames := S (_fpsFrames g2) in
  let time := (_fpsTime g2 + clampedDt)%Q in
  let g3 :=
    if Qle_bool 1000 time then
      let f := (inject_Z (Z.of_nat frames) * 1000 / time)%Q in
      mk (bus g2) (input g2) r2 (fixedDt g2) (accumulator g2) (lastTs g2)
         f 0 0%Q (player g2) (_setFps f (document g2))
         (S (frameRequests g2))
    else
      mk (bus g2) (input g2) r2 (fixedDt g2) (accumulator g2) (lastTs g2)
         (fps g2) frames time (player g2) (document g2)
         (S (frameRequests g2)) in
  Some (g3, calls ++ [CallResize; CallDraw sprite]).

End Game.

(** ** Boot *)

Module Boot.


(** The table [frames] of [boot]. *)
Definition frames : list (string * list nat) :=
  [("idle", [1; 2; 3; 4; 5; 6; 7; 8]);
   ("kick", [1; 2; 3; 4; 5; 6; 7]);
   ("punch", [1; 2; 3; 4; 5; 6; 7]);
   ("backward", [1; 2; 3; 4; 5; 6]);
   ("forward", [1; 2; 3; 4; 5; 6]);
   ("block", [1; 2; 3; 4; 5; 6])].



End Boot.

(** ** Notions used by the statements *)

(** The five actions that the input sources name, and the six states of
    the state machine. *)
Definition actions : list string :=
  ["kick"; "punch"; "forward"; "backward"; "block"].

Definition states : list string := "idle" :: actions.

(** The frame advance as the prose describes it, for an animation of [len]
    frames that last [d] each: while the accumulator holds at least [d],
    take [d] out of it and go to the next frame; when that frame would be
    at or past the number of frames, a looping animation starts again at
    frame 0, and a one-shot stays on its last frame, is marked finished and
    stops advancing. *)
Inductive advances (len : nat) (d : Q) :
    AnimationPlayer.t → AnimationPlayer.t → Prop :=
| advances_stop p :
    (AnimationPlayer.accumulator p < d)%Q →
    advances len d p p
| advances_next p p' :
    (d <= AnimationPlayer.accumulator p)%Q →
    S (AnimationPlayer.frameIndex p) < len →
    advances len d
      (AnimationPlayer.with_frameIndex (S (AnimationPlayer.frameIndex p))
         (AnimationPlayer.with_accumulator (AnimationPlayer.accumulator p - d) p))
      p' →
    advances len d p p'
| advances_wrap p p' :
    (d <= AnimationPlayer.accumulator p)%Q →
    len ≤ S (AnimationPlayer.frameIndex p) →
    AnimationPlayer.loop p = true →
    advances len d
      (AnimationPlayer.with_frameIndex 0
         (AnimationPlayer.with_accumulator (AnimationPlayer.accumulator p - d) p))
      p' →
    advances len d p p'
| advances_clamp p :
    (d <= AnimationPlayer.accumulator p)%Q →
    len ≤ S (AnimationPlayer.frameIndex p) →
    AnimationPlayer.loop p = false →
    advances len d p
      (AnimationPlayer.with_finished true
         (AnimationPlayer.with_frameIndex (len - 1)
            (AnimationPlayer.with_accumulator (AnimationPlayer.accumulator p - d) p))).

(** The animation players that a program can hold: the constructor, then
    any calls of [play] and any calls of [update] that return. *)
Inductive anim_reachable (anims : gmap string (list Image))
    (durs : gmap string Q) : AnimationPlayer.t → Prop :=
| anim_reach_new :
    anim_reachable anims durs (AnimationPlayer.new anims durs)
| anim_reach_play animation lp p :
    anim_reachable anims durs p →
    anim_reachable anims durs (AnimationPlayer.play animation lp p)
| anim_reach_update fuel dtMs p p' :
    anim_reachable anims durs p →
    AnimationPlayer.update fuel dtMs p = Some p' →
    anim_reachable anims durs p'.

(** The player controllers that a program can hold when every payload of
    an "action" event satisfies [ok]: the constructor, the call
    [_enterState("idle")] of the game's constructor, the two bus handlers,
    and any calls of [update] that return. *)
Inductive reachable (ok : string → Prop) (anims : gmap string (list Image))
    (durs : gmap string Q) : PlayerController.t → Prop :=
| reach_new :
    reachable ok anims durs
      (PlayerController.new (AnimationPlayer.new anims durs))
| reach_enter_idle pc :
    reachable ok anims durs pc →
    reachable ok anims durs (PlayerController._enterState "idle" pc).1
| reach_action action pc :
    reachable ok anims durs pc →
    (∀ a, action = Some a → ok a) →
    reachable ok anims durs (PlayerController.on_action action pc).1
| reach_reset pc :
    reachable ok anims durs pc →
    reachable ok anims durs (PlayerController.on_reset pc).1
| reach_update fuel dtMs world pc pc' evs :
    reachable ok anims durs pc →
    PlayerController.update fuel dtMs world pc = Some (pc', evs) →
    reachable ok anims durs pc'.

(** The states announced by a list of events, in order. *)
Definition entered (evs : list BusEvent) : list string :=
  omap (λ e, match e with StateChanged s => Some s | _ => None end) evs.

(** The URLs that [loadAnimations] asks for, in order, when nothing fails
    and nothing is cached. *)
Definition frameUrls (base : string) (framesByAnimation : list (string * list nat))
  : list string :=
  flat_map (λ entry : string * list nat,
              List.map (AssetLoader.frameUrl base entry.1) entry.2)
           framesByAnimation.

(** A game whose constants are those of the constructor. *)
Definition game_wf (g : Game.t) : Prop :=
  Game.fixedDt g = (1000 / 60)%Q ∧
  AnimationPlayer.frameDurations (Game.anim g) = Game.frameDurations.

(** [n] calls of [player.update] with the fixed step, one after the other,
    with the events of each delivered to the listeners. *)
Fixpoint fixedSteps (inner n : nat) (g : Game.t) : option Game.t :=
  match n with
  | O => Some g
  | S n' =>
      let world := mkWorld (Renderer.logicalSize (Game.renderer g))
                           (Renderer.logicalSize (Game.renderer g)) in
      '(pc, evs) ← PlayerController.update inner (Game.fixedDt g) world
                     (Game.player g);
      let g1 := foldl Game.deliver (Game.with_player pc g) evs in
      fixedSteps inner n'
        (Game.with_accumulator (Game.accumulator g1 - Game.fixedDt g1)%Q g1)
  end.

(** The frame index of [p] points into the frames of its animation,
    whenever that animation has frames. *)
Definition in_bounds (p : AnimationPlayer.t) : Prop :=
  ∀ frames,
    AnimationPlayer.animations p !! AnimationPlayer.current p = Some frames →
    frames ≠ [] →
    AnimationPlayer.frameIndex p < length frames.

(** ** Sample data *)

(** A player with a two-frame idle animation of 120 ms per frame. *)
Definition idle_frame1 : Image := mkImage 0 "images/idle/1.png".
Definition idle_frame2 : Image := mkImage 1 "images/idle/2.png".
Definition two_frame_player : AnimationPlayer.t :=
  AnimationPlayer.new {[ "idle" := [idle_frame1; idle_frame2] ]} {[ "idle" := 120%Q ]}.


(** The animations that [boot] hands to the game when every image loads. *)
Definition loaded_animations : gmap string (list Image) :=
  match AssetLoader.loadAnimations (λ _, true) Boot.frames
          (AssetLoader.mkLoadState (AssetLoader.new (Some "images")) []) with
  | (Resolved animations, _) => animations
  | (Rejected _, _) => ∅
  end.

(** The world that [_tick] passes to [player.update]. *)
Definition sample_world : World := mkWorld 500 500.

(** The player of a game that has just been constructed. *)
Definition fresh_player : PlayerController.t :=
  (PlayerController._enterState "idle"
     (PlayerController.new
        (AnimationPlayer.new loaded_animations Game.frameDurations))).1.

(** [n] calls of [update] with the same step. *)
Fixpoint updates (fuel n : nat) (dtMs : Q) (world : World)
    (pc : PlayerController.t) : option PlayerController.t :=
  match n with
  | O => Some pc
  | S n' =>
      '(pc1, _) ← PlayerController.update fuel dtMs world pc;
      updates fuel n' dtMs world pc1
  end.

(** The fresh player after eight fixed steps, 133 ms into the idle
    animation. *)
Definition idling_player : PlayerController.t :=
  default fresh_player (updates 2 8 (1000 / 60) sample_world fresh_player).

(** The effect of a "reset" as the prose has it: the queue is empty, the
    position is the origin, the state is idle, the idle animation loops from
    frame 0, and the emptied queue is announced. *)
Definition reset_restarts_idle (pc : PlayerController.t) : Prop :=
  let pc' := (PlayerController.on_reset pc).1 in
  PlayerController.queue pc' = [] ∧
  PlayerController.x pc' = 0%Q ∧ PlayerController.y pc' = 0%Q ∧
  PlayerController.state pc' = "idle" ∧
  AnimationPlayer.current (PlayerController.anim pc') = "idle" ∧
  AnimationPlayer.loop (PlayerController.anim pc') = true ∧
  AnimationPlayer.frameIndex (PlayerController.anim pc') = 0 ∧
  QueueChanged [] ∈ (PlayerController.on_reset pc).2.

(** The fresh player with one kick queued, and what the next fixed step
    makes of it. *)
Definition kick_queued : PlayerController.t :=
  (PlayerController.on_action (Some "kick") fresh_player).1.

Definition kick_started : PlayerController.t * list BusEvent :=
  default (kick_queued, [])
    (PlayerController.update 2 (1000 / 60) sample_world kick_queued).

(** What the prose says of the events that the input manager emits: each
    is an "action" whose payload is one of the five actions. *)
Definition only_actions (evs : list BusEvent) : Prop :=
  Forall (λ e, ∃ a, e = Action (Some a) ∧ a ∈ actions) evs.

(** A page with the kick button and the reset button. *)
Definition sample_document : gmap string string :=
  <["kick" := "Kick"]> (<["reset" := "Reset"]> ∅).


(** What can happen to a loader, one thing at a time, when calls are not
    awaited: a call of [loadImage], and the [load] or [error] event of an
    image that a call left pending. *)
Inductive LoaderEvent : Type :=
| Called (url : string)
| Loaded (url : string) (img : Image)
| Failed (url : string).

Definition loaderStep (l : AssetLoader.t) (ev : LoaderEvent) : AssetLoader.t :=
  match ev with
  | Called url => (AssetLoader.loadImage url l).2
  | Loaded url img => (AssetLoader.onload url img l).2
  | Failed url => (AssetLoader.onerror url l).2
  end.

(** What a run of the loader from [l] to [l'] did when it awaited the
    images at [urls] on the network [net] and settled as [r]: the URLs it
    requested are [new], each requested once and none of them cached
    before; the cache only grew, by images of the URL they are stored under
    whose load succeeded; after a success every awaited URL is cached;
    after a rejection the error names the last URL requested, which is one
    of [urls] and is not cached, and every URL requested before it is
    cached. *)
Definition loaded {A : Type} (net : Image → bool) (urls : list string)
    (l : AssetLoader.t) (r : settled A) (l' : AssetLoader.t)
    (new : list string) : Prop :=
  AssetLoader.requests l' = AssetLoader.requests l ++ new ∧
  AssetLoader.created l' = AssetLoader.created l + length new ∧
  AssetLoader.basePath l' = AssetLoader.basePath l ∧
  AssetLoader.cache l ⊆ AssetLoader.cache l' ∧
  NoDup new ∧
  (∀ u, u ∈ new → AssetLoader.cache l !! u = None) ∧
  (∀ u img, AssetLoader.cache l' !! u = Some img →
            AssetLoader.cache l !! u = Some img ∨
            (img_src img = u ∧ net img = true)) ∧
  match r with
  | Resolved _ =>
      (∀ u, u ∈ urls → is_Some (AssetLoader.cache l' !! u)) ∧
      (∀ u, u ∈ new → is_Some (AssetLoader.cache l' !! u))
  | Rejected e =>
      ∃ pre url,
        new = pre ++ [url] ∧ url ∈ urls ∧
        e = mkError ("Failed to load image: " +:+ url) ∧
        AssetLoader.cache l' !! url = None ∧
        (∀ u, u ∈ pre → is_Some (AssetLoader.cache l' !! u))
  end.

(** A network on which the fourth image to be created fails to load. *)
Definition fourth_fails (img : Image) : bool := negb (img_id img =? 3).

(** A page with the progress label of the loading screen. *)
Definition loading_document : gmap string string :=
  <["loadingProgress" := "0%"]> (<["loading" := "Loading"]> ∅).

Definition sample_viewport : Renderer.Viewport :=
  Renderer.mkViewport 500 500 (Some 1%Q).

(** Two games that differ at most in the player, the document and the
    accumulator: what the fixed updates of a tick can change. *)
Definition same_frame (g g' : Game.t) : Prop :=
  Game.bus g' = Game.bus g ∧ Game.input g' = Game.input g ∧
  Game.renderer g' = Game.renderer g ∧ Game.fixedDt g' = Game.fixedDt g ∧
  Game.lastTs g' = Game.lastTs g ∧ Game.fps g' = Game.fps g ∧
  Game._fpsFrames g' = Game._fpsFrames g ∧ Game._fpsTime g' = Game._fpsTime g ∧
  Game.frameRequests g' = Game.frameRequests g.

(** The game at the start of [_tick(ts)], once the clamped elapsed time is
    in the accumulator. *)
Definition tick_start (ts : Q) (g : Game.t) : Game.t :=
  Game.mk (Game.bus g) (Game.input g) (Game.renderer g) (Game.fixedDt g)
    (Game.accumulator g + Qmin 100 (Qmax 0 (ts - Game.lastTs g)))%Q ts
    (Game.fps g) (Game._fpsFrames g) (Game._fpsTime g) (Game.player g)
    (Game.document g) (Game.frameRequests g).

(** The world of a game: a square of the renderer's logical size. *)
Definition game_world (g : Game.t) : World :=
  mkWorld (Renderer.logicalSize (Game.renderer g))
          (Renderer.logicalSize (Game.renderer g)).

(** A game as [boot] starts it when every image loads. *)
Definition sample_game : Game.t :=
  Game.start (Game.new sample_viewport 0 loading_document loaded_animations).


(** ** Notions used by the further statements *)

(** The actions given to the "action" handler one after the other. *)
Definition enqueue (pc : PlayerController.t) (incoming : list string)
  : PlayerController.t :=
  foldl (λ pc' a, (PlayerController.on_action (Some a) pc').1) pc incoming.

(** The last thirteen entries of a list. *)
Definition last13 {A : Type} (l : list A) : list A := drop (length l - 13) l.

(** The interval in which [update] keeps a coordinate: [pad] inside the
    world on either side. *)
Definition lowest (extent : Q) : Q := (- extent / 2 + 40)%Q.
Definition highest (extent : Q) : Q := (extent / 2 - 40)%Q.







(** The fresh player walking forward. *)
Definition walking : PlayerController.t * list BusEvent :=
  default (fresh_player, [])
    (PlayerController.update 2 (1000 / 60) sample_world
       (PlayerController.on_action (Some "forward") fresh_player).1).

(** The images that a cache holds for the frames of an animation, in the
    order of the frames. *)
Definition cachedFrames (cache : gmap string Image) (base animation : string)
    (frames : list nat) : list Image :=
  omap (λ n, cache !! AssetLoader.frameUrl base animation n) frames.

(** The calls [onProgress(from + 1, total)] to [onProgress(from + n, total)]. *)
Definition progressCalls (from n total : nat) : list (nat * nat) :=
  (λ i, (i, total)) <$> seq (S from) n.

(** The number of frames of a table of animations: the [total] of
    [loadAnimations]. *)
Definition frameCount (framesByAnimation : list (string * list nat)) : nat :=
  foldl (λ sum a, sum + length a.2) 0 framesByAnimation.

(** The table of animations that a cache holds for a table of frame
    numbers, added to [result]. *)
Definition cachedAnimations (cache : gmap string Image) (base : string)
    (framesByAnimation : list (string * list nat))
    (result : gmap string (list Image)) : gmap string (list Image) :=
  foldl (λ acc (e : string * list nat),
           <[e.1 := cachedFrames cache base e.1 e.2]> acc)
        result framesByAnimation.

(** The state of the loader once [boot] has loaded every image. *)
Definition loaded_state : AssetLoader.LoadState :=
  (AssetLoader.loadAnimations (λ _, true) Boot.frames
     (AssetLoader.mkLoadState (AssetLoader.new (Some "images")) [])).2.


(** The bus of a game once its constructor has run. *)
Definition game_bus : gmap string (list handler) :=
  EventBus.on "queueChanged" HudQueue
    (EventBus.on "stateChanged" HudState
       (EventBus.on "reset" OnReset
          (EventBus.on "action" OnAction EventBus.new))).

(** The browser delivers a DOM event: the listeners of the input manager
    emit on the bus of the game. *)
Definition handle (ev : DomEvent) (g : Game.t) : Game.t :=
  foldl (λ g' e, Game.emit e g') g (InputManager.emitted (Game.input g) ev).

(** The [resize] listener that the renderer adds to the window. *)
Definition window_resize (v : Renderer.Viewport) (g : Game.t) : Game.t :=
  Game.mk (Game.bus g) (Game.input g) (Renderer.resize v (Game.renderer g))
    (Game.fixedDt g) (Game.accumulator g) (Game.lastTs g) (Game.fps g)
    (Game._fpsFrames g) (Game._fpsTime g) (Game.player g) (Game.document g)
    (Game.frameRequests g).

(** The games that the program can hold: the constructor on a page [d]
    with the animations loaded, then [start], DOM events, resizes of the
    window and ticks. *)
Inductive game_reachable (d : gmap string string)
    (animations : gmap string (list Image)) : Game.t → Prop :=
| game_new v now :
    game_reachable d animations (Game.new v now d animations)
| game_start g :
    game_reachable d animations g →
    game_reachable d animations (Game.start g)
| game_handle ev g :
    game_reachable d animations g →
    game_reachable d animations (handle ev g)
| game_resize v g :
    game_reachable d animations g →
    game_reachable d animations (window_resize v g)
| game_tick fuel ts v g g' calls :
    game_reachable d animations g →
    Game._tick fuel ts v g = Some (g', calls) →
    game_reachable d animations g'.

(** What the two listeners of the HUD make of an event. *)
Definition hudShow (d : gmap string string) (e : BusEvent)
  : gmap string string :=
  match e with
  | StateChanged s => setText "hudState" s d
  | QueueChanged q => Game.renderQueue q d
  | _ => d
  end.

(** The text that [renderQueue] writes for a queue. *)
Definition queueText (q : list string) : string :=
  match q with
  | [] => "(empty)"
  | _ => String.concat Game.arrow q
  end.

(** The HUD shows the state and the queue of the player, in the elements
    that the page has for them. *)
Definition hud_shows (g : Game.t) : Prop :=
  (∀ t, Game.document g !! "hudState" = Some t →
        t = PlayerController.state (Game.player g)) ∧
  (∀ t, Game.document g !! "hudQueue" = Some t →
        t = queueText (PlayerController.queue (Game.player g))).

(** The queues announced by a list of events, in order. *)
Definition queues (evs : list BusEvent) : list (list string) :=
  omap (λ e, match e with QueueChanged q => Some q | _ => None end) evs.

(** The events [evs] tell what became of the state and of the queue
    between [pc] and [pc']. *)
Definition announced (pc : PlayerController.t) (evs : list BusEvent)
    (pc' : PlayerController.t) : Prop :=
  PlayerController.state pc'
  = default (PlayerController.state pc) (last (entered evs)) ∧
  PlayerController.queue pc'
  = default (PlayerController.queue pc) (last (queues evs)).

(** What a bus event from the input manager does to the player. *)
Definition player_handles (pc : PlayerController.t) (e : BusEvent)
  : PlayerController.t :=
  match e with
  | Action a => (PlayerController.on_action a pc).1
  | Reset => (PlayerController.on_reset pc).1
  | _ => pc
  end.

(** What every reachable game satisfies. *)
Record game_inv (d : gmap string string)
    (animations : gmap string (list Image)) (g : Game.t) : Prop := mkGameInv {
  inv_bus : Game.bus g = game_bus;
  inv_input : Game.input g = InputManager.new d;
  inv_wf : game_wf g;
  inv_player : reachable (λ a, a ∈ actions) animations Game.frameDurations
                 (Game.player g);
  inv_hud : hud_shows g;
  inv_accumulator :
    (0 <= Game.accumulator g)%Q ∧ (Game.accumulator g < 1000 / 60)%Q;
  inv_fpsTime :
    (0 <= Game._fpsTime g)%Q ∧ (Game._fpsTime g < 1000)%Q ∧
    (Game._fpsTime g <= 100 * inject_Z (Z.of_nat (Game._fpsFrames g)))%Q;
  inv_fps : (Game.fps g == 0)%Q ∨ (10 <= Game.fps g)%Q;
  inv_world : Renderer.logicalSize (Game.renderer g) = 500%Q;
  inv_position :
    (-210 <= PlayerController.x (Game.player g))%Q ∧
    (PlayerController.x (Game.player g) <= 210)%Q ∧
    PlayerController.y (Game.player g) = 0%Q
}.

(** The part of [game_inv] that the fixed updates of a tick maintain: what
    is said of the bus, the player, the HUD and the world. *)
Record player_inv (d : gmap string string)
    (animations : gmap string (list Image)) (g : Game.t) : Prop := mkPlayerInv {
  pinv_bus : Game.bus g = game_bus;
  pinv_input : Game.input g = InputManager.new d;
  pinv_wf : game_wf g;
  pinv_player : reachable (λ a, a ∈ actions) animations Game.frameDurations
                  (Game.player g);
  pinv_hud : hud_shows g;
  pinv_world : Renderer.logicalSize (Game.renderer g) = 500%Q;
  pinv_position :
    (-210 <= PlayerController.x (Game.player g))%Q ∧
    (PlayerController.x (Game.player g) <= 210)%Q ∧
    PlayerController.y (Game.player g) = 0%Q
}.

(** The sample game after the up arrow was pressed, and what the tick 50 ms
    later makes of it. *)
Definition kick_pressed : Game.t := handle (KeyDown "ArrowUp") sample_game.

Definition kick_ticked : Game.t * list Game.Call :=
  default (kick_pressed, []) (Game._tick 3 50 sample_viewport kick_pressed).
(** Every state of the state machine has an animation, and every one of
    these animations has a frame. *)
Definition all_loaded (animations : gmap string (list Image)) : Prop :=
  ∀ s, s ∈ states → ∃ frames, animations !! s = Some frames ∧ frames ≠ [].

(** The animation player plays the animation of the state of the
    controller, looping in "idle" and nowhere else. *)
Definition shows_state (pc : PlayerController.t) : Prop :=
  AnimationPlayer.current (PlayerController.anim pc) = PlayerController.state pc ∧
  AnimationPlayer.loop (PlayerController.anim pc)
  = String.eqb (PlayerController.state pc) "idle".

(** What the two phases of [update] maintain: the table of animations,
    a queue of actions, and the animation of the state. *)
Definition phase_inv (anims : gmap string (list Image))
    (pc : PlayerController.t) : Prop :=
  AnimationPlayer.animations (PlayerController.anim pc) = anims ∧
  Forall (λ a, a ∈ actions) (PlayerController.queue pc) ∧
  shows_state pc.


(** * Tactics *)

(** Membership of a given element in a list that is written out. *)
Ltac in_list :=
  repeat first [apply list_elem_of_here | apply list_elem_of_further].

(** * Facts about rationals *)

Lemma Qle_bool_true (a b : Q) : Qle_bool a b = true ↔ (a <= b)%Q.
Proof. apply Qle_bool_iff. Qed.

Lemma Qle_bool_false (a b : Q) : Qle_bool a b = false ↔ (b < a)%Q.
Proof.
  split; intros H.
  - apply Qnot_le_lt. intros Hle. apply Qle_bool_iff in Hle. congruence.
  - destruct (Qle_bool a b) eqn:E; [|done].
    apply Qle_bool_iff in E. exfalso. exact (Qlt_not_le _ _ H E).
Qed.


Lemma inject_nat_succ (k : nat) :
  (inject_Z (Z.of_nat (S k)) == inject_Z (Z.of_nat k) + 1)%Q.
Proof.
  rewrite Nat2Z.inj_succ. unfold Z.succ. rewrite inject_Z_plus. reflexivity.
Qed.

(** * AnimationPlayer: the frame advance *)

Section Advance.

Variables (len : nat) (d : Q).

Import AnimationPlayer.

Lemma advance_unfold fuel p :
  advance fuel len d p =
    if Qle_bool d (accumulator p) then
      match fuel with
      | O => None
      | S fuel' =>
          let p1 := with_frameIndex (S (frameIndex p))
                      (with_accumulator (accumulator p - d)%Q p) in
          if len <=? frameIndex p1 then
            if loop p1 then advance fuel' len d (with_frameIndex 0 p1)
            else Some (with_finished true (with_frameIndex (len - 1) p1))
          else advance fuel' len d p1
      end
    else Some p.
Proof. destruct fuel; reflexivity. Qed.

Lemma advance_advances fuel p p' :
  advance fuel len d p = Some p' → advances len d p p'.
Proof.
  revert p. induction fuel as [|fuel IH]; intros p; rewrite advance_unfold.
  - destruct (Qle_bool d (accumulator p)) eqn:E; [done|].
    intros [= <-]. apply advances_stop. by apply Qle_bool_false.
  - destruct (Qle_bool d (accumulator p)) eqn:E.
    + apply Qle_bool_true in E. cbn zeta.
      destruct (len <=? _) eqn:Hlen.
      * apply Nat.leb_le in Hlen. cbn in Hlen.
        destruct (loop _) eqn:Hloop; cbn in Hloop.
        -- intros H. apply IH in H. by apply advances_wrap.
        -- intros [= <-]. by apply advances_clamp.
      * apply Nat.leb_gt in Hlen. cbn in Hlen.
        intros H. apply IH in H. by apply advances_next.
    + intros [= <-]. apply advances_stop. by apply Qle_bool_false.
Qed.





End Advance.

Section AdvanceFacts.

Import AnimationPlayer.

(** What the loop leaves alone. *)
Lemma advances_frame (len : nat) (d : Q) p p' :
  advances len d p p' →
  animations p' = animations p ∧ frameDurations p' = frameDurations p ∧
  current p' = current p ∧ loop p' = loop p.
Proof.
  induction 1 as [p _|p p' _ _ _ IH|p p' _ _ _ _ IH|p _ _ _]; cbn in *;
    intuition congruence.
Qed.

(** The loop keeps the frame index inside an animation that has frames. *)
Lemma advances_in_bounds (len : nat) (d : Q) p p' :
  advances len d p p' → 0 < len → frameIndex p < len → frameIndex p' < len.
Proof.
  induction 1 as [p _|p p' _ Hidx _ IH|p p' _ _ _ _ IH|p _ _ _]; cbn in *;
    intros; auto; lia.
Qed.




End AdvanceFacts.



Example update_250ms :
  AnimationPlayer.update 3 250 two_frame_player =
    Some (AnimationPlayer.mk {[ "idle" := [idle_frame1; idle_frame2] ]}
            {[ "idle" := 120%Q ]} "idle" true 0 (0 + 250 - 120 - 120)%Q false).
Proof. reflexivity. Qed.

(** * AnimationPlayer: the frame index stays in bounds *)

Lemma update_advances fuel dtMs p p' frames :
  AnimationPlayer.animations p !! AnimationPlayer.current p = Some frames →
  frames ≠ [] →
  AnimationPlayer.update fuel dtMs p = Some p' →
  advances (length frames) (AnimationPlayer.frameDuration p)
    (AnimationPlayer.with_accumulator (AnimationPlayer.accumulator p + dtMs) p) p'.
Proof.
  intros Hframes Hne. unfold AnimationPlayer.update. rewrite Hframes.
  destruct frames; [done|]. apply advance_advances.
Qed.

Lemma update_idle fuel dtMs p :
  (AnimationPlayer.animations p !! AnimationPlayer.current p = None ∨
   AnimationPlayer.animations p !! AnimationPlayer.current p = Some []) →
  AnimationPlayer.update fuel dtMs p = Some p.
Proof. unfold AnimationPlayer.update. by intros [-> | ->]. Qed.

(** [update] changes neither the table of animations nor the animation
    that plays. *)
Lemma update_frame fuel dtMs p p' :
  AnimationPlayer.update fuel dtMs p = Some p' →
  AnimationPlayer.animations p' = AnimationPlayer.animations p ∧
  AnimationPlayer.frameDurations p' = AnimationPlayer.frameDurations p ∧
  AnimationPlayer.current p' = AnimationPlayer.current p ∧
  AnimationPlayer.loop p' = AnimationPlayer.loop p.
Proof.
  intros H.
  destruct (AnimationPlayer.animations p !! AnimationPlayer.current p)
    as [[|img frames]|] eqn:E.
  - rewrite update_idle in H by auto. by injection H as <-.
  - apply (update_advances _ _ _ _ _ E) in H; [|done].
    apply advances_frame in H. exact H.
  - rewrite update_idle in H by auto. by injection H as <-.
Qed.

Lemma play_animations animation lp p :
  AnimationPlayer.animations (AnimationPlayer.play animation lp p)
  = AnimationPlayer.animations p.
Proof.
  unfold AnimationPlayer.play.
  destruct (_ !! animation); [|done]. by destruct (_ && _).
Qed.

Lemma new_in_bounds anims durs : in_bounds (AnimationPlayer.new anims durs).
Proof. intros [|img frames] _ Hne; [done|]. cbn. lia. Qed.

Lemma play_in_bounds animation lp p :
  in_bounds p → in_bounds (AnimationPlayer.play animation lp p).
Proof.
  intros Hp. unfold AnimationPlayer.play.
  destruct (_ !! animation); [|done]. destruct (_ && _); [done|].
  intros [|img frames] _ Hne; [done|]. cbn. lia.
Qed.

Lemma update_in_bounds fuel dtMs p p' :
  in_bounds p → AnimationPlayer.update fuel dtMs p = Some p' → in_bounds p'.
Proof.
  intros Hp H frames.
  destruct (update_frame _ _ _ _ H) as (Ha & _ & Hc & _).
  rewrite Ha, Hc. intros Hframes Hne.
  pose proof (update_advances _ _ _ _ _ Hframes Hne H) as Hadv.
  eapply advances_in_bounds; eauto.
  destruct frames; [done|]. cbn. lia.
Qed.

Lemma anim_reachable_in_bounds anims durs p :
  anim_reachable anims durs p → in_bounds p.
Proof.
  induction 1; eauto using new_in_bounds, play_in_bounds, update_in_bounds.
Qed.



(** * PlayerController: the two phases of [update] *)

Section Controller.

Import PlayerController.

Lemma eqb_idle_false (s : string) : s ≠ "idle" → String.eqb s "idle" = false.
Proof. intros H. by apply String.eqb_neq. Qed.

Lemma enterState_anim s pc :
  anim (_enterState s pc).1
  = AnimationPlayer.play s (String.eqb s "idle") (anim pc).
Proof.
  unfold _enterState. destruct (String.eqb s "idle") eqn:E; [|done].
  apply String.eqb_eq in E. by subst.
Qed.

Lemma enterState_fields s pc :
  state (_enterState s pc).1 = s ∧ queue (_enterState s pc).1 = queue pc ∧
  x (_enterState s pc).1 = x pc ∧ y (_enterState s pc).1 = y pc ∧
  speed (_enterState s pc).1 = speed pc ∧
  (_enterState s pc).2 = [StateChanged s].
Proof. unfold _enterState. by destruct (String.eqb s "idle"). Qed.

Lemma update_phases fuel dtMs world pc pc' evs :
  update fuel dtMs world pc = Some (pc', evs) →
  ∃ a,
    AnimationPlayer.update fuel dtMs (anim (startQueued (afterOneShot pc).1).1)
      = Some a ∧
    pc' = with_anim a (move dtMs world (startQueued (afterOneShot pc).1).1) ∧
    evs = (afterOneShot pc).2 ++ (startQueued (afterOneShot pc).1).2.
Proof.
  unfold update.
  destruct (afterOneShot pc) as [pc1 ev1]. cbn [fst snd].
  destruct (startQueued pc1) as [pc2 ev2]. cbn [fst snd].
  destruct (AnimationPlayer.update fuel dtMs (anim (move dtMs world pc2)))
    as [a|] eqn:E; [|done].
  intros [= <- <-]. exists a. by split_and!.
Qed.

Lemma update_state_queue fuel dtMs world pc pc' evs :
  update fuel dtMs world pc = Some (pc', evs) →
  state pc' = state (startQueued (afterOneShot pc).1).1 ∧
  queue pc' = queue (startQueued (afterOneShot pc).1).1.
Proof. intros H. apply update_phases in H as (a & _ & -> & _). done. Qed.

(** The first phase, case by case. *)
Lemma afterOneShot_next pc a q :
  state pc ≠ "idle" → AnimationPlayer.finished (anim pc) = true →
  queue pc = a :: q →
  afterOneShot pc =
    ((_enterState a (with_queue q pc)).1, [QueueChanged q; StateChanged a]).
Proof.
  intros Hs Hf Hq. unfold afterOneShot, _consumeNextAction.
  rewrite eqb_idle_false, Hf, Hq by done. cbn [negb andb head tail default from_option id].
  destruct (_enterState a (with_queue q pc)) as [pc2 ev2] eqn:E.
  pose proof (enterState_fields a (with_queue q pc)) as (_&_&_&_&_&Hev).
  rewrite E in Hev. cbn in Hev. subst. reflexivity.
Qed.

Lemma afterOneShot_idle pc :
  state pc ≠ "idle" → AnimationPlayer.finished (anim pc) = true →
  queue pc = [] →
  afterOneShot pc =
    ((_enterState "idle" pc).1, [QueueChanged []; StateChanged "idle"]).
Proof.
  intros Hs Hf Hq. unfold afterOneShot, _consumeNextAction.
  rewrite eqb_idle_false, Hf, Hq by done. cbn [negb andb head tail default from_option id].
  replace (with_queue [] pc) with pc by (destruct pc; cbn in *; by subst).
  reflexivity.
Qed.

Lemma afterOneShot_skip pc :
  state pc = "idle" ∨ AnimationPlayer.finished (anim pc) = false →
  afterOneShot pc = (pc, []).
Proof.
  unfold afterOneShot. intros [-> | ->]; [done|]. by rewrite andb_false_r.
Qed.

(** The second phase, case by case. *)
Lemma startQueued_next pc a q :
  state pc = "idle" → queue pc = a :: q →
  startQueued pc =
    ((_enterState a (with_queue q pc)).1, [QueueChanged q; StateChanged a]).
Proof.
  intros Hs Hq. unfold startQueued, _consumeNextAction.
  rewrite Hs, Hq. cbn [String.eqb andb head tail length Nat.ltb Nat.leb].
  cbn.
  destruct (_enterState a (with_queue q pc)) as [pc2 ev2] eqn:E.
  pose proof (enterState_fields a (with_queue q pc)) as (_&_&_&_&_&Hev).
  rewrite E in Hev. cbn in Hev. subst. reflexivity.
Qed.

Lemma startQueued_skip pc :
  state pc ≠ "idle" ∨ queue pc = [] → startQueued pc = (pc, []).
Proof.
  unfold startQueued. intros [H | ->].
  - by rewrite eqb_idle_false.
  - by rewrite andb_false_r.
Qed.


(** Each phase takes its actions from the front of the queue and enters
    them in that order; [idle] is entered without taking anything when a
    finished one-shot finds the queue empty. *)
Lemma afterOneShot_fifo pc :
  ∃ consumed,
    queue pc = consumed ++ queue (afterOneShot pc).1 ∧
    length consumed ≤ 1 ∧
    (entered (afterOneShot pc).2 = consumed ∨
     (state pc ≠ "idle" ∧ AnimationPlayer.finished (anim pc) = true ∧
      queue pc = [] ∧ entered (afterOneShot pc).2 = ["idle"])) ∧
    state (afterOneShot pc).1
      = default (state pc) (last (entered (afterOneShot pc).2)).
Proof.
  destruct (decide (state pc = "idle")) as [Hs|Hs];
    [|destruct (AnimationPlayer.finished (anim pc)) eqn:Hf;
      [destruct (queue pc) as [|a q] eqn:Hq|]].
  - rewrite afterOneShot_skip by auto. exists []. cbn. auto.
  - rewrite afterOneShot_idle by auto. exists [].
    destruct (enterState_fields "idle" pc) as (Hst & Hqu & _).
    cbn [fst snd]. rewrite Hst, Hqu, Hq. cbn. split_and!; auto.
  - rewrite (afterOneShot_next pc a q) by auto. exists [a].
    destruct (enterState_fields a (with_queue q pc)) as (Hst & Hqu & _).
    cbn [fst snd]. rewrite Hst, Hqu. cbn. split_and!; auto.
  - rewrite afterOneShot_skip by auto. exists []. cbn. auto.
Qed.

Lemma startQueued_fifo pc :
  ∃ consumed,
    queue pc = consumed ++ queue (startQueued pc).1 ∧
    length consumed ≤ 1 ∧
    entered (startQueued pc).2 = consumed ∧
    state (startQueued pc).1
      = default (state pc) (last (entered (startQueued pc).2)).
Proof.
  destruct (decide (state pc = "idle")) as [Hs|Hs];
    [destruct (queue pc) as [|a q] eqn:Hq|].
  - rewrite startQueued_skip by auto. exists []. cbn. auto.
  - rewrite (startQueued_next pc a q) by auto. exists [a].
    destruct (enterState_fields a (with_queue q pc)) as (Hst & Hqu & _).
    cbn [fst snd]. rewrite Hst, Hqu. cbn. split_and!; auto.
  - rewrite startQueued_skip by auto. exists []. cbn. auto.
Qed.

Lemma update_fifo fuel dtMs world pc pc' evs :
  update fuel dtMs world pc = Some (pc', evs) →
  ∃ consumed,
    queue pc = consumed ++ queue pc' ∧
    length consumed ≤ 2 ∧
    (entered evs = consumed ∨
     (state pc ≠ "idle" ∧ AnimationPlayer.finished (anim pc) = true ∧
      queue pc = [] ∧ entered evs = ["idle"])) ∧
    state pc' = default (state pc) (last (entered evs)).
Proof.
  intros H. apply update_phases in H as (a & _ & -> & ->).
  destruct (afterOneShot_fifo pc) as (c1 & Hq1 & Hl1 & He1 & Hs1).
  destruct (startQueued_fifo (afterOneShot pc).1) as (c2 & Hq2 & Hl2 & He2 & Hs2).
  cbn [with_anim move with_position state queue].
  unfold entered in *. rewrite omap_app.
  exists (c1 ++ c2). split_and!.
  - rewrite Hq1 at 1. rewrite Hq2 at 1. by rewrite app_assoc.
  - rewrite length_app. lia.
  - destruct He1 as [He1 | (Hs & Hf & Hq & He1)].
    + left. by rewrite He1, He2.
    + right. split_and!; auto.
      rewrite Hq in Hq1. symmetry in Hq1.
      apply app_eq_nil in Hq1 as [-> Hq1].
      rewrite Hq1 in Hq2. symmetry in Hq2.
      apply app_eq_nil in Hq2 as [-> _].
      rewrite He1, He2. done.
  - rewrite Hs2, Hs1.
    destruct (omap _ (startQueued _).2) as [|s l] eqn:E using rev_ind.
    + by rewrite app_nil_r.
    + by rewrite app_assoc, !last_snoc.
Qed.

(** The handler of "action" keeps the queue at 13 entries or fewer. *)
Lemma on_action_queue action pc :
  (queue (on_action action pc).1 = queue pc ∧ (on_action action pc).2 = []
   ∧ (action = None ∨ action = Some EmptyString)) ∨
  (∃ a, action = Some a ∧ a ≠ EmptyString ∧
        queue (on_action action pc).1
        = (if decide (12 < length (queue pc)) then tail (queue pc)
           else queue pc) ++ [a] ∧
        (on_action action pc).2 = [QueueChanged (queue (on_action action pc).1)]).
Proof.
  destruct action as [[|c a]|]; [left; cbn; auto| |left; cbn; auto].
  right. exists (String c a). split_and!; [done|done| |done].
  cbn [on_action fst with_queue queue].
  case_decide as Hlen.
  - apply Nat.ltb_lt in Hlen. by rewrite Hlen.
  - apply Nat.ltb_nlt in Hlen. by rewrite Hlen.
Qed.

Lemma on_action_fields action pc :
  state (on_action action pc).1 = state pc ∧
  anim (on_action action pc).1 = anim pc ∧
  x (on_action action pc).1 = x pc ∧ y (on_action action pc).1 = y pc.
Proof. by destruct action as [[|c a]|]. Qed.

Lemma on_action_capped action pc :
  length (queue pc) ≤ 13 → length (queue (on_action action pc).1) ≤ 13.
Proof.
  intros Hlen.
  destruct (on_action_queue action pc) as [(-> & _)|(a & _ & _ & -> & _)];
    [done|].
  rewrite length_app. cbn. case_decide; [|lia].
  destruct (queue pc); cbn in *; lia.
Qed.

Lemma on_reset_fields pc :
  queue (on_reset pc).1 = [] ∧ x (on_reset pc).1 = 0%Q ∧
  y (on_reset pc).1 = 0%Q ∧ state (on_reset pc).1 = "idle" ∧
  anim (on_reset pc).1 = AnimationPlayer.play "idle" true (anim pc) ∧
  (on_reset pc).2 = [StateChanged "idle"; QueueChanged []].
Proof. done. Qed.

End Controller.

(** * [play] *)

Lemma play_missing animation lp p :
  AnimationPlayer.animations p !! animation = None →
  AnimationPlayer.play animation lp p = p.
Proof. unfold AnimationPlayer.play. by intros ->. Qed.

(** [play] of an animation that exists leaves it playing in the mode asked
    for, not finished; it starts from frame 0 unless that animation was
    already playing in that mode and had not finished. *)
Lemma play_plays animation lp p :
  is_Some (AnimationPlayer.animations p !! animation) →
  AnimationPlayer.current (AnimationPlayer.play animation lp p) = animation ∧
  AnimationPlayer.loop (AnimationPlayer.play animation lp p) = lp ∧
  AnimationPlayer.finished (AnimationPlayer.play animation lp p) = false ∧
  ((AnimationPlayer.current p = animation ∧ AnimationPlayer.loop p = lp ∧
    AnimationPlayer.finished p = false ∧
    AnimationPlayer.play animation lp p = p)
   ∨ (¬ (AnimationPlayer.current p = animation ∧ AnimationPlayer.loop p = lp ∧
         AnimationPlayer.finished p = false) ∧
      AnimationPlayer.frameIndex (AnimationPlayer.play animation lp p) = 0 ∧
      AnimationPlayer.accumulator (AnimationPlayer.play animation lp p) = 0%Q)).
Proof.
  intros [frames Hframes]. unfold AnimationPlayer.play. rewrite Hframes.
  destruct (String.eqb _ animation) eqn:Hc;
    [apply String.eqb_eq in Hc|apply String.eqb_neq in Hc];
    (destruct (Bool.eqb _ lp) eqn:Hl;
     [apply Bool.eqb_prop in Hl|apply Bool.eqb_false_iff in Hl]);
    destruct (AnimationPlayer.finished p) eqn:Hf; cbn;
    split_and!; auto; try (right; split_and!; auto; intros (?&?&?); congruence).
Qed.

Lemma play_frameDurations animation lp p :
  AnimationPlayer.frameDurations (AnimationPlayer.play animation lp p)
  = AnimationPlayer.frameDurations p.
Proof.
  unfold AnimationPlayer.play.
  destruct (_ !! animation); [|done]. by destruct (_ && _).
Qed.

(** * PlayerController: reachable states *)

(** No method of the controller changes the tables of its animation
    player. *)
Lemma enterState_tables s pc :
  AnimationPlayer.animations (PlayerController.anim (PlayerController._enterState s pc).1)
  = AnimationPlayer.animations (PlayerController.anim pc) ∧
  AnimationPlayer.frameDurations (PlayerController.anim (PlayerController._enterState s pc).1)
  = AnimationPlayer.frameDurations (PlayerController.anim pc).
Proof. by rewrite enterState_anim, play_animations, play_frameDurations. Qed.

Lemma afterOneShot_tables pc :
  AnimationPlayer.animations (PlayerController.anim (PlayerController.afterOneShot pc).1)
  = AnimationPlayer.animations (PlayerController.anim pc) ∧
  AnimationPlayer.frameDurations (PlayerController.anim (PlayerController.afterOneShot pc).1)
  = AnimationPlayer.frameDurations (PlayerController.anim pc).
Proof.
  unfold PlayerController.afterOneShot. destruct (_ && _); [|done].
  cbn [PlayerController._consumeNextAction].
  destruct (PlayerController._enterState _ _) as [pc2 ev2] eqn:E.
  cbn [fst]. change pc2 with (pc2, ev2).1. rewrite <- E.
  exact (enterState_tables _ (PlayerController.with_queue _ pc)).
Qed.

Lemma startQueued_tables pc :
  AnimationPlayer.animations (PlayerController.anim (PlayerController.startQueued pc).1)
  = AnimationPlayer.animations (PlayerController.anim pc) ∧
  AnimationPlayer.frameDurations (PlayerController.anim (PlayerController.startQueued pc).1)
  = AnimationPlayer.frameDurations (PlayerController.anim pc).
Proof.
  unfold PlayerController.startQueued. destruct (_ && _); [|done].
  cbn [PlayerController._consumeNextAction].
  destruct (head _) as [next|]; [|done].
  destruct (PlayerController._enterState _ _) as [pc2 ev2] eqn:E.
  cbn [fst]. change pc2 with (pc2, ev2).1. rewrite <- E.
  exact (enterState_tables _ (PlayerController.with_queue _ pc)).
Qed.

Lemma update_tables fuel dtMs world pc pc' evs :
  PlayerController.update fuel dtMs world pc = Some (pc', evs) →
  AnimationPlayer.animations (PlayerController.anim pc')
  = AnimationPlayer.animations (PlayerController.anim pc) ∧
  AnimationPlayer.frameDurations (PlayerController.anim pc')
  = AnimationPlayer.frameDurations (PlayerController.anim pc).
Proof.
  intros H. apply update_phases in H as (a & Ha & -> & _). cbn.
  apply update_frame in Ha as (-> & -> & _).
  destruct (startQueued_tables (PlayerController.afterOneShot pc).1) as [-> ->].
  apply afterOneShot_tables.
Qed.

Lemma reachable_animations ok anims durs pc :
  reachable ok anims durs pc →
  AnimationPlayer.animations (PlayerController.anim pc) = anims.
Proof.
  induction 1 as [|pc _ IH|action pc _ IH _|pc _ IH|fuel dtMs world pc pc' evs _ IH Hupd].
  - done.
  - rewrite enterState_anim, play_animations. exact IH.
  - destruct (on_action_fields action pc) as (_ & -> & _). exact IH.
  - destruct (on_reset_fields pc) as (_&_&_&_& -> &_).
    rewrite play_animations. exact IH.
  - apply update_tables in Hupd as [-> _]. exact IH.
Qed.

Lemma updates_reachable ok anims durs fuel n dtMs world pc pc' :
  reachable ok anims durs pc →
  updates fuel n dtMs world pc = Some pc' →
  reachable ok anims durs pc'.
Proof.
  revert pc. induction n as [|n IH]; intros pc Hpc; cbn.
  - by intros [= <-].
  - destruct (PlayerController.update fuel dtMs world pc) as [[pc1 evs]|] eqn:E;
      [|done].
    cbn. apply IH. eapply reach_update; eauto.
Qed.

Lemma fresh_player_reachable ok :
  reachable ok loaded_animations Game.frameDurations fresh_player.
Proof. apply reach_enter_idle, reach_new. Qed.

Lemma idling_player_reachable ok :
  reachable ok loaded_animations Game.frameDurations idling_player.
Proof.
  eapply (updates_reachable _ _ _ 2 8 (1000 / 60) sample_world fresh_player).
  - apply fresh_player_reachable.
  - vm_compute. reflexivity.
Qed.

Example idling_player_frame :
  AnimationPlayer.current (PlayerController.anim idling_player) = "idle" ∧
  AnimationPlayer.frameIndex (PlayerController.anim idling_player) = 1.
Proof. vm_compute. done. Qed.

(** * PlayerController: the queue *)

Lemma update_queue_length fuel dtMs world pc pc' evs :
  PlayerController.update fuel dtMs world pc = Some (pc', evs) →
  length (PlayerController.queue pc') ≤ length (PlayerController.queue pc).
Proof.
  intros H. apply update_fifo in H as (consumed & -> & _).
  rewrite length_app. lia.
Qed.

Lemma reachable_queue_capped ok anims durs pc :
  reachable ok anims durs pc → length (PlayerController.queue pc) ≤ 13.
Proof.
  induction 1 as [|pc _ IH|action pc _ IH _|pc _ IH|fuel dtMs world pc pc' evs _ IH Hupd].
  - cbn. lia.
  - by destruct (enterState_fields "idle" pc) as (_ & -> & _).
  - by apply on_action_capped.
  - cbn. lia.
  - apply update_queue_length in Hupd. lia.
Qed.

(** C2: the queue of a reachable controller never holds more than 13
    actions, whatever the payloads of the "action" events were; the handler
    of "action" keeps it so by dropping the oldest entry of a queue longer
    than 12 before it appends the new action. *)
Theorem queue_never_exceeds_13 (ok : string → Prop)
    (anims : gmap string (list Image)) (durs : gmap string Q)
    (pc : PlayerController.t) :
  reachable ok anims durs pc →
  length (PlayerController.queue pc) ≤ 13 ∧
  ∀ action : option string,
    length (PlayerController.queue (PlayerController.on_action action pc).1) ≤ 13 ∧
    ∀ a, action = Some a → a ≠ EmptyString →
      PlayerController.queue (PlayerController.on_action action pc).1
      = (if decide (12 < length (PlayerController.queue pc))
         then tail (PlayerController.queue pc)
         else PlayerController.queue pc) ++ [a].
Proof.
  intros Hreach.
  pose proof (reachable_queue_capped _ _ _ _ Hreach) as Hlen.
  split; [exact Hlen|]. intros action. split.
  - by apply on_action_capped.
  - intros a -> Ha.
    destruct (on_action_queue (Some a) pc)
      as [(_ & _ & [?|?])|(a' & [= <-] & _ & Hq & _)]; congruence.
Qed.

Lemma queue_never_exceeds_13_witness :
  length (PlayerController.queue idling_player) ≤ 13 ∧
  ∀ action : option string,
    length (PlayerController.queue
              (PlayerController.on_action action idling_player).1) ≤ 13 ∧
    ∀ a, action = Some a → a ≠ EmptyString →
      PlayerController.queue (PlayerController.on_action action idling_player).1
      = (if decide (12 < length (PlayerController.queue idling_player))
         then tail (PlayerController.queue idling_player)
         else PlayerController.queue idling_player) ++ [a].
Proof.
  apply (queue_never_exceeds_13 (λ _, True) loaded_animations
           Game.frameDurations idling_player).
  apply idling_player_reachable.
Defined.

(** The bound is reached: fourteen actions in a row leave thirteen in the
    queue, the first one dropped. *)
Example fourteen_actions :
  PlayerController.queue
    (foldl (λ pc a, (PlayerController.on_action (Some a) pc).1) fresh_player
       ["kick"; "punch"; "kick"; "punch"; "kick"; "punch"; "kick"; "punch";
        "kick"; "punch"; "kick"; "punch"; "kick"; "block"])
  = ["punch"; "kick"; "punch"; "kick"; "punch"; "kick"; "punch";
     "kick"; "punch"; "kick"; "punch"; "kick"; "block"].
Proof. vm_compute. reflexivity. Qed.

(** * PlayerController: the state machine *)

(** C3: what [update] does to the state, the queue and the animation.
    The actions it takes come off the front of the queue and are entered in
    the order they were queued; the four cases of the prose follow, and
    entering a state plays its animation: idle looping, any other state as
    a one-shot. *)
Theorem update_consumes_in_order (fuel : nat) (dtMs : Q) (world : World)
    (pc pc' : PlayerController.t) (evs : list BusEvent) :
  PlayerController.update fuel dtMs world pc = Some (pc', evs) →
  (∃ consumed,
     PlayerController.queue pc = consumed ++ PlayerController.queue pc' ∧
     (entered evs = consumed ∨
      (PlayerController.state pc ≠ "idle" ∧
       AnimationPlayer.finished (PlayerController.anim pc) = true ∧
       PlayerController.queue pc = [] ∧ entered evs = ["idle"])) ∧
     PlayerController.state pc'
     = default (PlayerController.state pc) (last (entered evs))) ∧
  (PlayerController.state pc ≠ "idle" →
   AnimationPlayer.finished (PlayerController.anim pc) = true →
   ∀ a q, PlayerController.queue pc = a :: q → a ≠ "idle" →
     PlayerController.state pc' = a ∧ PlayerController.queue pc' = q ∧
     AnimationPlayer.update fuel dtMs
       (AnimationPlayer.play a false (PlayerController.anim pc))
     = Some (PlayerController.anim pc')) ∧
  (PlayerController.state pc ≠ "idle" →
   AnimationPlayer.finished (PlayerController.anim pc) = true →
   PlayerController.queue pc = [] →
     PlayerController.state pc' = "idle" ∧ PlayerController.queue pc' = [] ∧
     AnimationPlayer.update fuel dtMs
       (AnimationPlayer.play "idle" true (PlayerController.anim pc))
     = Some (PlayerController.anim pc')) ∧
  (PlayerController.state pc = "idle" →
   ∀ a q, PlayerController.queue pc = a :: q →
     PlayerController.state pc' = a ∧ PlayerController.queue pc' = q ∧
     AnimationPlayer.update fuel dtMs
       (AnimationPlayer.play a (String.eqb a "idle") (PlayerController.anim pc))
     = Some (PlayerController.anim pc')) ∧
  ((PlayerController.state pc = "idle" ∧ PlayerController.queue pc = []) ∨
   (PlayerController.state pc ≠ "idle" ∧
    AnimationPlayer.finished (PlayerController.anim pc) = false) →
     PlayerController.state pc' = PlayerController.state pc ∧
     PlayerController.queue pc' = PlayerController.queue pc ∧
     evs = [] ∧
     AnimationPlayer.update fuel dtMs (PlayerController.anim pc)
     = Some (PlayerController.anim pc')) ∧
  (∀ s lp,
     is_Some (AnimationPlayer.animations (PlayerController.anim pc) !! s) →
     AnimationPlayer.current
       (AnimationPlayer.play s lp (PlayerController.anim pc)) = s ∧
     AnimationPlayer.loop
       (AnimationPlayer.play s lp (PlayerController.anim pc)) = lp ∧
     AnimationPlayer.finished
       (AnimationPlayer.play s lp (PlayerController.anim pc)) = false).
Proof.
  intros Hupd.
  pose proof (update_fifo _ _ _ _ _ _ Hupd) as (consumed & Hq & _ & He & Hs).
  apply update_phases in Hupd as (a' & Ha' & -> & ->).
  cbn [PlayerController.with_anim PlayerController.move
       PlayerController.with_position PlayerController.state
       PlayerController.queue PlayerController.anim] in *.
  split_and!.
  - exists consumed. auto.
  - intros Hst Hfin a q Hqueue Hna.
    rewrite (afterOneShot_next pc a q) in * by done. cbn [fst snd] in *.
    destruct (enterState_fields a (PlayerController.with_queue q pc))
      as (Hst1 & Hq1 & _).
    rewrite startQueued_skip in * by (left; congruence).
    cbn [fst] in *. rewrite Hst1, Hq1. split_and!; [done|done|].
    rewrite enterState_anim, (eqb_idle_false a Hna) in Ha'. exact Ha'.
  - intros Hst Hfin Hqueue.
    rewrite afterOneShot_idle in * by done. cbn [fst snd] in *.
    destruct (enterState_fields "idle" pc) as (Hst1 & Hq1 & _).
    rewrite startQueued_skip in * by (right; congruence).
    cbn [fst] in *. rewrite Hst1, Hq1, Hqueue. split_and!; [done|done|].
    rewrite enterState_anim in Ha'. exact Ha'.
  - intros Hst a q Hqueue.
    rewrite afterOneShot_skip in * by auto. cbn [fst snd] in *.
    rewrite (startQueued_next pc a q) in * by done. cbn [fst] in *.
    destruct (enterState_fields a (PlayerController.with_queue q pc))
      as (Hst1 & Hq1 & _).
    rewrite Hst1, Hq1. split_and!; [done|done|].
    rewrite enterState_anim in Ha'. exact Ha'.
  - intros Hcase.
    rewrite afterOneShot_skip in * by (destruct Hcase as [[? _]|[_ ?]]; auto).
    cbn [fst snd] in *.
    rewrite startQueued_skip in * by (destruct Hcase as [[_ ?]|[? _]]; auto).
    done.
  - intros s lp Hsome.
    destruct (play_plays s lp (PlayerController.anim pc) Hsome)
      as (? & ? & ? & _). done.
Qed.

Lemma update_consumes_in_order_witness :
  PlayerController.update 2 (1000 / 60) sample_world kick_queued
  = Some (kick_started.1, kick_started.2) ∧
  PlayerController.state kick_started.1 = "kick" ∧
  PlayerController.queue kick_started.1 = [] ∧
  AnimationPlayer.update 2 (1000 / 60)
    (AnimationPlayer.play "kick" false (PlayerController.anim kick_queued))
  = Some (PlayerController.anim kick_started.1).
Proof.
  assert (H : PlayerController.update 2 (1000 / 60) sample_world kick_queued
              = Some (kick_started.1, kick_started.2))
    by (vm_compute; reflexivity).
  split; [exact H|].
  destruct (update_consumes_in_order 2 (1000 / 60) sample_world kick_queued
              kick_started.1 kick_started.2 H) as (_ & _ & _ & Hidle & _).
  exact (Hidle eq_refl "kick" [] eq_refl).
Defined.

Lemma enterState_state_in s pc :
  s ∈ states → PlayerController.state (PlayerController._enterState s pc).1 ∈ states.
Proof. by destruct (enterState_fields s pc) as (-> & _). Qed.

Lemma actions_states a : a ∈ actions → a ∈ states.
Proof. intros H. by apply list_elem_of_further. Qed.

(** With payloads among the five actions, the queue holds actions only and
    the state is one of the six. *)
Lemma reachable_six_states anims durs pc :
  reachable (λ a, a ∈ actions) anims durs pc →
  PlayerController.state pc ∈ states ∧
  Forall (λ a, a ∈ actions) (PlayerController.queue pc).
Proof.
  induction 1 as [|pc _ IH|action pc _ IH Hok|pc _ IH
                 |fuel dtMs world pc pc' evs _ IH Hupd].
  - split; [|by constructor]. apply list_elem_of_here.
  - destruct IH as [_ IHq].
    destruct (enterState_fields "idle" pc) as (-> & -> & _).
    split; [|done]. apply list_elem_of_here.
  - destruct IH as [IHs IHq].
    destruct (on_action_fields action pc) as (-> & _). split; [done|].
    destruct (on_action_queue action pc) as [(-> & _)|(a & -> & _ & -> & _)];
      [done|].
    apply Forall_app. split; [|apply Forall_singleton; eauto].
    case_decide; [|done]. destruct (PlayerController.queue pc); [done|].
    by inversion IHq.
  - split; [|by constructor]. apply list_elem_of_here.
  - destruct IH as [IHs IHq].
    apply update_fifo in Hupd as (consumed & Hq & _ & He & ->).
    rewrite Hq in IHq. apply Forall_app in IHq as [Hc Hq'].
    split; [|done].
    destruct He as [-> | (_ & _ & _ & ->)]; [|apply list_elem_of_here].
    destruct consumed as [|c consumed _] using rev_ind; [done|].
    rewrite last_snoc. cbn. apply actions_states.
    apply Forall_app in Hc as [_ Hc]. by inversion Hc.
Qed.

(** C4: when every payload of an "action" event is one of kick, punch,
    forward, backward and block, the state of a reachable controller is
    one of idle, kick, punch, forward, backward and block. *)
Theorem state_is_one_of_six (anims : gmap string (list Image))
    (durs : gmap string Q) (pc : PlayerController.t) :
  reachable (λ a, a ∈ actions) anims durs pc →
  PlayerController.state pc ∈
    ["idle"; "kick"; "punch"; "forward"; "backward"; "block"].
Proof. intros H. by apply reachable_six_states in H as [H _]. Qed.

Lemma state_is_one_of_six_witness :
  PlayerController.state kick_started.1 ∈
    ["idle"; "kick"; "punch"; "forward"; "backward"; "block"].
Proof.
  apply (state_is_one_of_six loaded_animations Game.frameDurations).
  apply (reach_update _ _ _ 2 (1000 / 60) sample_world kick_queued
           kick_started.1 kick_started.2).
  - apply reach_action.
    + apply reach_enter_idle, reach_new.
    + intros a [= <-]. apply list_elem_of_here.
  - vm_compute. reflexivity.
Defined.

(** Each of the six states is the state of some reachable controller. *)
Lemma every_state_is_reached (s : string) :
  s ∈ states →
  ∃ pc, reachable (λ a, a ∈ actions) loaded_animations Game.frameDurations pc ∧
        PlayerController.state pc = s.
Proof.
  intros Hs. apply elem_of_cons in Hs as [-> | Hs].
  - exists fresh_player. split; [apply fresh_player_reachable|done].
  - set (queued := (PlayerController.on_action (Some s) fresh_player).1).
    assert (Hq : reachable (λ a, a ∈ actions) loaded_animations
                   Game.frameDurations queued).
    { apply reach_action; [apply fresh_player_reachable|]. by intros a [= <-]. }
    unfold actions in Hs.
    repeat (apply elem_of_cons in Hs as [-> | Hs];
            [eexists; split;
             [eapply (reach_update _ _ _ 2 (1000 / 60) sample_world);
              [exact Hq|vm_compute; reflexivity]
             |reflexivity]|]).
    by apply elem_of_nil in Hs.
Qed.

(** * PlayerController: reset *)

(** C9, as the code has it: a "reset" empties the queue, puts the
    controller at the origin and in state idle, leaves the idle animation
    looping and not finished, and announces the state and the emptied
    queue. The idle animation starts again from frame 0 unless it was
    already looping unfinished, in which case it goes on from where it
    was. *)
Theorem reset_establishes_idle (ok : string → Prop)
    (anims : gmap string (list Image)) (durs : gmap string Q)
    (pc : PlayerController.t) :
  reachable ok anims durs pc →
  is_Some (anims !! "idle") →
  PlayerController.queue (PlayerController.on_reset pc).1 = [] ∧
  PlayerController.x (PlayerController.on_reset pc).1 = 0%Q ∧
  PlayerController.y (PlayerController.on_reset pc).1 = 0%Q ∧
  PlayerController.state (PlayerController.on_reset pc).1 = "idle" ∧
  AnimationPlayer.current (PlayerController.anim (PlayerController.on_reset pc).1)
  = "idle" ∧
  AnimationPlayer.loop (PlayerController.anim (PlayerController.on_reset pc).1)
  = true ∧
  AnimationPlayer.finished (PlayerController.anim (PlayerController.on_reset pc).1)
  = false ∧
  (PlayerController.on_reset pc).2 = [StateChanged "idle"; QueueChanged []] ∧
  ((AnimationPlayer.current (PlayerController.anim pc) = "idle" ∧
    AnimationPlayer.loop (PlayerController.anim pc) = true ∧
    AnimationPlayer.finished (PlayerController.anim pc) = false ∧
    PlayerController.anim (PlayerController.on_reset pc).1
    = PlayerController.anim pc)
   ∨ (¬ (AnimationPlayer.current (PlayerController.anim pc) = "idle" ∧
         AnimationPlayer.loop (PlayerController.anim pc) = true ∧
         AnimationPlayer.finished (PlayerController.anim pc) = false) ∧
      AnimationPlayer.frameIndex
        (PlayerController.anim (PlayerController.on_reset pc).1) = 0 ∧
      AnimationPlayer.accumulator
        (PlayerController.anim (PlayerController.on_reset pc).1) = 0%Q)).
Proof.
  intros Hreach Hidle.
  apply reachable_animations in Hreach. rewrite <- Hreach in Hidle.
  destruct (on_reset_fields pc) as (-> & -> & -> & -> & -> & ->).
  destruct (play_plays "idle" true (PlayerController.anim pc) Hidle)
    as (-> & -> & -> & Hcases).
  split_and!; auto.
Qed.

Lemma reset_establishes_idle_witness :
  PlayerController.queue (PlayerController.on_reset kick_started.1).1 = [] ∧
  PlayerController.state (PlayerController.on_reset kick_started.1).1 = "idle" ∧
  AnimationPlayer.current
    (PlayerController.anim (PlayerController.on_reset kick_started.1).1) = "idle" ∧
  (PlayerController.on_reset kick_started.1).2
  = [StateChanged "idle"; QueueChanged []].
Proof.
  assert (Hreach : reachable (λ _, True) loaded_animations Game.frameDurations
                     kick_started.1).
  { apply (reach_update _ _ _ 2 (1000 / 60) sample_world kick_queued
             kick_started.1 kick_started.2).
    - apply reach_action; [apply reach_enter_idle, reach_new|done].
    - vm_compute. reflexivity. }
  assert (Hidle : is_Some (loaded_animations !! "idle"))
    by (vm_compute; eauto).
  destruct (reset_establishes_idle _ _ _ _ Hreach Hidle)
    as (Hq & _ & _ & Hs & Hc & _ & _ & Hev & _).
  auto.
Defined.

(** C9, as the prose has it, fails for a controller that is idling: the
    idle animation is on its second frame when the reset arrives, and it
    stays there. *)
Lemma reset_restart_counterexample :
  reachable (λ a, a ∈ actions) loaded_animations Game.frameDurations
    idling_player ∧
  ¬ reset_restarts_idle idling_player.
Proof.
  split; [apply idling_player_reachable|].
  intros (_ & _ & _ & _ & _ & _ & Hframe & _).
  vm_compute in Hframe. discriminate.
Qed.

Example reset_keeps_idle_frame :
  AnimationPlayer.frameIndex
    (PlayerController.anim (PlayerController.on_reset idling_player).1) = 1.
Proof. vm_compute. reflexivity. Qed.

(** * InputManager *)

Lemma keydown_emits key e :
  e ∈ (InputManager.keydown key).2 → ∃ a, e = Action (Some a) ∧ a ∈ actions.
Proof.
  unfold InputManager.keydown. cbn [snd].
  repeat (destruct (String.eqb key _);
          [intros ->%list_elem_of_singleton; eexists; split; [done|];
           in_list|]).
  intros []%elem_of_nil.
Qed.

Lemma setupButtons_listeners document l :
  l ∈ InputManager._setupButtons document →
  (∃ a, l = (a, Action (Some a)) ∧ a ∈ actions ∧ is_Some (document !! a)) ∨
  (l = ("reset", Reset) ∧ is_Some (document !! "reset")).
Proof.
  unfold InputManager._setupButtons. intros [H|H]%elem_of_app.
  - left. apply list_elem_of_omap in H as ([id a] & Hin & Hl). cbn in Hl.
    destruct (document !! id) as [text|] eqn:E; [|done].
    injection Hl as <-.
    unfold InputManager.map in Hin.
    repeat (apply elem_of_cons in Hin as [[= -> ->] | Hin];
            [eexists; split_and!; [reflexivity| |by eexists];
             in_list|]).
    by apply elem_of_nil in Hin.
  - right. destruct (document !! "reset") as [text|] eqn:E.
    + apply list_elem_of_singleton in H as ->. split; [done|by eexists].
    + by apply elem_of_nil in H.
Qed.

(** C6, as the code has it: the events that the input manager emits are
    "action" events whose payload is one of the five actions, and, for a
    click on the reset button, a "reset" event. *)
Theorem input_emits_actions_or_reset (document : gmap string string)
    (ev : DomEvent) (e : BusEvent) :
  e ∈ InputManager.emitted (InputManager.new document) ev →
  (∃ a, e = Action (Some a) ∧ a ∈ actions) ∨
  (e = Reset ∧ ev = Click "reset" ∧ is_Some (document !! "reset")).
Proof.
  destruct ev as [key|id]; cbn [InputManager.emitted].
  - intros H. left. by apply keydown_emits in H.
  - intros H. apply list_elem_of_fmap in H as ([id' e'] & -> & H).
    apply list_elem_of_filter in H as [Hid H]. cbn in Hid. subst id'.
    apply setupButtons_listeners in H
      as [(a & [= -> ->] & Ha & _)|([= -> ->] & Hreset)].
    + left. eauto.
    + right. auto.
Qed.

Lemma input_emits_actions_or_reset_witness :
  (∃ a, Action (Some "kick") = Action (Some a) ∧ a ∈ actions) ∨
  (Action (Some "kick") = Reset ∧ Click "kick" = Click "reset" ∧
   is_Some (sample_document !! "reset")).
Proof.
  apply (input_emits_actions_or_reset sample_document (Click "kick")
           (Action (Some "kick"))).
  vm_compute. apply list_elem_of_here.
Defined.

(** C6, as the prose has it, fails for a click on the reset button. *)
Lemma input_reset_counterexample :
  InputManager.emitted (InputManager.new sample_document) (Click "reset")
  = [Reset] ∧
  ¬ only_actions
      (InputManager.emitted (InputManager.new sample_document) (Click "reset")).
Proof.
  split; [vm_compute; reflexivity|].
  intros H. vm_compute in H. apply Forall_inv in H as (a & Ha & _). discriminate.
Qed.

(** The keyboard and the five action buttons do emit actions only. *)
Lemma keyboard_only_actions document key :
  only_actions (InputManager.emitted (InputManager.new document) (KeyDown key)).
Proof. apply Forall_forall. intros e He. by apply keydown_emits in He. Qed.

(** * AssetLoader *)

(** One awaited [loadImage], case by case. *)
Lemma await_loadImage_cases net url l :
  (∃ img, AssetLoader.cache l !! url = Some img ∧
          AssetLoader.await_loadImage net url l = (Resolved img, l)) ∨
  (AssetLoader.cache l !! url = None ∧
   net (mkImage (AssetLoader.created l) url) = true ∧
   AssetLoader.await_loadImage net url l =
     (Resolved (mkImage (AssetLoader.created l) url),
      AssetLoader.mk (AssetLoader.basePath l)
        (<[url := mkImage (AssetLoader.created l) url]> (AssetLoader.cache l))
        (S (AssetLoader.created l)) (AssetLoader.requests l ++ [url]))) ∨
  (AssetLoader.cache l !! url = None ∧
   net (mkImage (AssetLoader.created l) url) = false ∧
   AssetLoader.await_loadImage net url l =
     (Rejected (mkError ("Failed to load image: " +:+ url)),
      AssetLoader.mk (AssetLoader.basePath l) (AssetLoader.cache l)
        (S (AssetLoader.created l)) (AssetLoader.requests l ++ [url]))).
Proof.
  unfold AssetLoader.await_loadImage, AssetLoader.loadImage.
  destruct (AssetLoader.cache l !! url) as [img|] eqn:E.
  - left. eauto.
  - right. destruct (net _) eqn:Hnet; [left|right]; auto.
Qed.





Lemma loadImage_hit net url l img :
  AssetLoader.cache l !! url = Some img →
  AssetLoader.loadImage url l = (AssetLoader.Ready img, l) ∧
  AssetLoader.await_loadImage net url l = (Resolved img, l).
Proof.
  intros H. unfold AssetLoader.await_loadImage, AssetLoader.loadImage.
  by rewrite H.
Qed.



(** Two calls for one URL, made before either image has loaded, create
    two images; the cache ends with the image whose [load] event comes
    last. [loadAnimations] awaits every call, so it never gets there. *)
Example overlapping_loads :
  let l0 := AssetLoader.new (Some "images") in
  let url := "images/idle/1.png" in
  let l := foldl loaderStep l0
             [Called url; Called url;
              Loaded url (mkImage 0 url); Loaded url (mkImage 1 url)] in
  AssetLoader.created l = 2 ∧
  AssetLoader.cache l !! url = Some (mkImage 1 url).
Proof. vm_compute. done. Qed.

(** * AssetLoader: [loadAnimations] *)

Lemma loaded_nil {A : Type} net (a : A) l : loaded net [] l (Resolved a) l [].
Proof.
  unfold loaded. rewrite app_nil_r, Nat.add_0_r.
  split_and!; auto using NoDup_nil_2; intros u []%elem_of_nil.
Qed.

Lemma loaded_await net url l :
  ∃ new, loaded net [url] l (AssetLoader.await_loadImage net url l).1
           (AssetLoader.await_loadImage net url l).2 new.
Proof.
  destruct (await_loadImage_cases net url l)
    as [(i & Hi & ->)|[(Hnone & Hnet & ->)|(Hnone & _ & ->)]]; cbn [fst snd].
  - exists []. unfold loaded. rewrite app_nil_r, Nat.add_0_r.
    split_and!; auto using NoDup_nil_2; try (intros u []%elem_of_nil).
    intros u ->%list_elem_of_singleton. by eexists.
  - exists [url]. unfold loaded. cbn.
    split_and!; auto using NoDup_singleton.
    + lia.
    + by apply insert_subseteq.
    + by intros u ->%list_elem_of_singleton.
    + intros u img [[<- <-]|[_ Hu]]%lookup_insert_Some; auto.
    + intros u ->%list_elem_of_singleton. rewrite lookup_insert_eq. by eexists.
    + intros u ->%list_elem_of_singleton. rewrite lookup_insert_eq. by eexists.
  - exists [url]. unfold loaded. cbn.
    split_and!; auto using NoDup_singleton.
    + lia.
    + by intros u ->%list_elem_of_singleton.
    + exists [], url. split_and!; auto.
      * apply list_elem_of_here.
      * intros u []%elem_of_nil.
Qed.

Lemma loaded_compose {A B : Type} net urls1 urls2 l (a : A) l1 new1
    (r : settled B) l2 new2 :
  loaded net urls1 l (Resolved a) l1 new1 →
  loaded net urls2 l1 r l2 new2 →
  loaded net (urls1 ++ urls2) l r l2 (new1 ++ new2).
Proof.
  intros (Hr1 & Hc1 & Hb1 & Hsub1 & Hnd1 & Hnew1 & Hs1 & Hu1 & Hn1)
         (Hr2 & Hc2 & Hb2 & Hsub2 & Hnd2 & Hnew2 & Hs2 & Hres).
  assert (Hkeep : ∀ u, is_Some (AssetLoader.cache l1 !! u) →
                       is_Some (AssetLoader.cache l2 !! u)).
  { intros u [i Hi]. exists i. eapply lookup_weaken; eauto. }
  unfold loaded. split_and!.
  - by rewrite Hr2, Hr1, app_assoc.
  - rewrite Hc2, Hc1, length_app. lia.
  - congruence.
  - etrans; eauto.
  - apply NoDup_app. split_and!; auto.
    intros u Hu1' Hu2'. apply Hn1 in Hu1' as [i Hi].
    apply Hnew2 in Hu2'. congruence.
  - intros u [Hu|Hu]%elem_of_app; [by apply Hnew1|].
    apply Hnew2 in Hu.
    destruct (AssetLoader.cache l !! u) as [i|] eqn:E; [|done].
    eapply lookup_weaken in E; eauto. congruence.
  - intros u img Hu. apply Hs2 in Hu as [Hu|Hu]; auto.
  - destruct r as [b|e].
    + destruct Hres as [Hu2 Hn2]. split.
      * intros u [Hu|Hu]%elem_of_app; auto.
      * intros u [Hu|Hu]%elem_of_app; auto.
    + destruct Hres as (pre & url & -> & Hin & -> & Hnone & Hpre).
      exists (new1 ++ pre), url. split_and!; auto.
      * by rewrite app_assoc.
      * apply elem_of_app. auto.
      * intros u [Hu|Hu]%elem_of_app; auto.
Qed.

(** The two loops, one iteration at a time. *)
Lemma loadFrames_cons net base animation n frames done total s :
  AssetLoader.loadFrames net base animation (n :: frames) done total s =
  match AssetLoader.await_loadImage net (AssetLoader.frameUrl base animation n)
          (AssetLoader.loader s) with
  | (Rejected e, l1) =>
      (Rejected e, AssetLoader.mkLoadState l1 (AssetLoader.progress s))
  | (Resolved img, l1) =>
      match AssetLoader.loadFrames net base animation frames (done + 1) total
              (AssetLoader.mkLoadState l1
                 (AssetLoader.progress s ++ [(done + 1, total)])) with
      | (Resolved r, s2) => (Resolved (img :: r.1, r.2), s2)
      | (Rejected e, s2) => (Rejected e, s2)
      end
  end.
Proof.
  cbn [AssetLoader.loadFrames].
  unfold AssetLoader.bind, AssetLoader.awaitImage, AssetLoader.onProgress,
    AssetLoader.ret.
  destruct (AssetLoader.await_loadImage _ _ _) as [[img|e] l1]; [|done].
  cbn [AssetLoader.loader AssetLoader.progress].
  by destruct (AssetLoader.loadFrames _ _ _ _ _ _ _) as [[r|e] s2].
Qed.

Lemma loadEach_cons net base animation frames todo done total result s :
  AssetLoader.loadEach net base ((animation, frames) :: todo) done total result s =
  match AssetLoader.loadFrames net base animation frames done total s with
  | (Rejected e, s1) => (Rejected e, s1)
  | (Resolved r, s1) =>
      AssetLoader.loadEach net base todo r.2 total (<[animation := r.1]> result) s1
  end.
Proof.
  cbn [AssetLoader.loadEach]. unfold AssetLoader.bind.
  by destruct (AssetLoader.loadFrames _ _ _ _ _ _ _) as [[r|e] s1].
Qed.

Lemma loaded_rejected_more {A B : Type} net urls urls' l e l' new :
  (∀ u, u ∈ urls → u ∈ urls') →
  loaded (A := A) net urls l (Rejected e) l' new →
  loaded (A := B) net urls' l (Rejected e) l' new.
Proof.
  intros Hsub (?&?&?&?&?&?&?& pre & url & -> & Hin & -> & ? & ?).
  unfold loaded. split_and!; auto.
  exists pre, url. split_and!; auto.
Qed.

Lemma loadFrames_loaded net base animation frames done total s :
  ∃ new,
    loaded net (List.map (AssetLoader.frameUrl base animation) frames)
      (AssetLoader.loader s)
      (AssetLoader.loadFrames net base animation frames done total s).1
      (AssetLoader.loader
         (AssetLoader.loadFrames net base animation frames done total s).2)
      new.
Proof.
  revert done s. induction frames as [|n frames IH]; intros done s.
  - exists []. apply loaded_nil.
  - rewrite loadFrames_cons. cbn [List.map].
    destruct (loaded_await net (AssetLoader.frameUrl base animation n)
                (AssetLoader.loader s)) as [new1 H1].
    destruct (AssetLoader.await_loadImage net _ (AssetLoader.loader s))
      as [[img|e] l1] eqn:E; cbn [fst snd] in H1.
    + set (s1 := AssetLoader.mkLoadState l1 _).
      destruct (IH (done + 1) s1) as [new2 H2].
      destruct (AssetLoader.loadFrames net base animation frames (done + 1) total s1)
        as [[r|e] s2]; cbn [fst snd] in *; exists (new1 ++ new2);
        apply (loaded_compose net [_] _ _ img l1 new1 _ _ new2 H1 H2).
    + exists new1. cbn [fst snd AssetLoader.loader].
      eapply loaded_rejected_more; [|exact H1].
      intros u ->%list_elem_of_singleton. apply list_elem_of_here.
Qed.

Lemma loadEach_loaded net base todo done total result s :
  ∃ new,
    loaded net (frameUrls base todo) (AssetLoader.loader s)
      (AssetLoader.loadEach net base todo done total result s).1
      (AssetLoader.loader
         (AssetLoader.loadEach net base todo done total result s).2)
      new.
Proof.
  revert done result s.
  induction todo as [|[animation frames] todo IH]; intros done result s.
  - exists []. apply loaded_nil.
  - rewrite loadEach_cons. cbn [frameUrls flat_map fst snd].
    destruct (loadFrames_loaded net base animation frames done total s)
      as [new1 H1].
    destruct (AssetLoader.loadFrames net base animation frames done total s)
      as [[r|e] s1]; cbn [fst snd] in *.
    + destruct (IH r.2 (<[animation := r.1]> result) s1) as [new2 H2].
      exists (new1 ++ new2). eapply loaded_compose; eauto.
    + exists new1. eapply loaded_rejected_more; [|exact H1].
      intros u Hu. apply elem_of_app. auto.
Qed.

Lemma loadAnimations_loaded net framesByAnimation s :
  ∃ new,
    loaded net (frameUrls (AssetLoader.basePath (AssetLoader.loader s))
              framesByAnimation)
      (AssetLoader.loader s)
      (AssetLoader.loadAnimations net framesByAnimation s).1
      (AssetLoader.loader (AssetLoader.loadAnimations net framesByAnimation s).2)
      new.
Proof. apply loadEach_loaded. Qed.


(** * Boot *)

Lemma setText_other id s d id' :
  id' ≠ id → setText id s d !! id' = d !! id'.
Proof.
  intros Hne. unfold setText. destruct (d !! id); [|done].
  by rewrite lookup_insert_ne.
Qed.







(** * Game: the fixed-step scheduler *)

Lemma with_document_id g : Game.with_document (Game.document g) g = g.
Proof. by destruct g. Qed.

Lemma hud_handlers_document e hs g :
  ∃ d, foldl (λ g' h, Game.with_document
                        (Game.hudHandler h e (Game.document g')) g') g hs
       = Game.with_document d g.
Proof.
  revert g. induction hs as [|h hs IH]; intros g; cbn.
  - exists (Game.document g). by rewrite with_document_id.
  - destruct (IH (Game.with_document
                    (Game.hudHandler h e (Game.document g)) g)) as [d ->].
    by exists d.
Qed.

(** Delivering the player's events changes the document only. *)
Lemma deliver_document g e : ∃ d, Game.deliver g e = Game.with_document d g.
Proof. apply hud_handlers_document. Qed.

Lemma deliver_all_document g evs :
  ∃ d, foldl Game.deliver g evs = Game.with_document d g.
Proof.
  revert g. induction evs as [|e evs IH]; intros g; cbn.
  - exists (Game.document g). by rewrite with_document_id.
  - destruct (deliver_document g e) as [d ->].
    destruct (IH (Game.with_document d g)) as [d' ->]. by exists d'.
Qed.

(** One fixed update: the player takes a step, the accumulator gives up
    one [fixedDt]. *)
Lemma fixed_step_frame g pc evs :
  let g1 := foldl Game.deliver (Game.with_player pc g) evs in
  let g2 := Game.with_accumulator (Game.accumulator g1 - Game.fixedDt g1)%Q g1 in
  same_frame g g2 ∧ Game.player g2 = pc ∧
  Game.accumulator g2 = (Game.accumulator g - Game.fixedDt g)%Q.
Proof.
  cbn zeta. destruct (deliver_all_document (Game.with_player pc g) evs) as [d ->].
  unfold same_frame. cbn. done.
Qed.

Lemma same_frame_refl g : same_frame g g.
Proof. unfold same_frame. done. Qed.

Lemma same_frame_trans g1 g2 g3 :
  same_frame g1 g2 → same_frame g2 g3 → same_frame g1 g3.
Proof. unfold same_frame. intuition congruence. Qed.

Lemma fixedUpdates_unfold fuel inner g :
  Game.fixedUpdates fuel inner g =
    if Qle_bool (Game.fixedDt g) (Game.accumulator g) then
      match fuel with
      | O => None
      | S fuel' =>
          '(pc, evs) ← PlayerController.update inner (Game.fixedDt g)
                         (game_world g) (Game.player g);
          let g1 := foldl Game.deliver (Game.with_player pc g) evs in
          let g2 := Game.with_accumulator
                      (Game.accumulator g1 - Game.fixedDt g1)%Q g1 in
          '(g3, calls) ← Game.fixedUpdates fuel' inner g2;
          Some (g3, Game.CallUpdate (Game.fixedDt g) (game_world g) :: calls)
      end
    else Some (g, []).
Proof. destruct fuel; reflexivity. Qed.

(** The loop of [_tick] is [k] fixed steps, for the [k] that leaves less
    than one step in the accumulator. *)
Lemma fixedUpdates_steps fuel inner g g' calls :
  Game.fixedUpdates fuel inner g = Some (g', calls) →
  ∃ k,
    calls = replicate k (Game.CallUpdate (Game.fixedDt g) (game_world g)) ∧
    fixedSteps inner k g = Some g' ∧
    same_frame g g' ∧
    (Game.accumulator g' < Game.fixedDt g)%Q ∧
    (Game.accumulator g'
     == Game.accumulator g - inject_Z (Z.of_nat k) * Game.fixedDt g)%Q ∧
    (0 < k → (0 <= Game.accumulator g')%Q).
Proof.
  revert g g' calls. induction fuel as [|fuel IH]; intros g g' calls;
    rewrite fixedUpdates_unfold;
    destruct (Qle_bool (Game.fixedDt g) (Game.accumulator g)) eqn:E;
    try done.
  - intros [= <- <-]. exists 0. apply Qle_bool_false in E.
    change (inject_Z (Z.of_nat 0)) with 0%Q.
    split_and!; auto using same_frame_refl; [lra|lia].
  - apply Qle_bool_true in E.
    destruct (PlayerController.update inner _ _ _) as [[pc evs]|] eqn:Hupd;
      [|done].
    cbn [mbind option_bind].
    pose proof (fixed_step_frame g pc evs) as Hstep. cbn zeta in Hstep.
    set (g2 := Game.with_accumulator _ _) in *.
    destruct Hstep as (Hframe & Hpc & Hacc).
    destruct (Game.fixedUpdates fuel inner g2) as [[g3 calls3]|] eqn:Hrest;
      [|done].
    cbn. intros [= <- <-].
    apply IH in Hrest as (k & -> & Hsteps & Hframe' & Hlt & Heq & Hpos).
    assert (HfixedDt : Game.fixedDt g2 = Game.fixedDt g) by apply Hframe.
    assert (Hworld : game_world g2 = game_world g).
    { unfold game_world. by destruct Hframe as (_ & _ & -> & _). }
    exists (S k). split_and!.
    + by rewrite HfixedDt, Hworld.
    + cbn [fixedSteps]. fold (game_world g). rewrite Hupd. exact Hsteps.
    + eapply same_frame_trans; eauto.
    + by rewrite <- HfixedDt.
    + rewrite Heq, Hacc, HfixedDt, inject_nat_succ. lra.
    + intros _. destruct k as [|k].
      * change (inject_Z (Z.of_nat 0)) with 0%Q in Heq.
        rewrite Heq, Hacc. lra.
      * apply Hpos. lia.
  - intros [= <- <-]. exists 0. apply Qle_bool_false in E.
    change (inject_Z (Z.of_nat 0)) with 0%Q.
    split_and!; auto using same_frame_refl; [lra|lia].
Qed.




Lemma fixed_step_wf g pc evs inner :
  game_wf g →
  PlayerController.update inner (Game.fixedDt g) (game_world g) (Game.player g)
  = Some (pc, evs) →
  game_wf
    (Game.with_accumulator
       (Game.accumulator (foldl Game.deliver (Game.with_player pc g) evs)
        - Game.fixedDt (foldl Game.deliver (Game.with_player pc g) evs))%Q
       (foldl Game.deliver (Game.with_player pc g) evs)).
Proof.
  intros [Hdt Hdur] Hupd.
  destruct (fixed_step_frame g pc evs) as (Hframe & Hpc & _). cbn zeta in *.
  split.
  - destruct Hframe as (_ & _ & _ & -> & _). exact Hdt.
  - unfold Game.anim. rewrite Hpc.
    apply update_tables in Hupd as [_ ->]. exact Hdur.
Qed.



Lemma clamped_bounds (dt : Q) :
  (0 <= Qmin 100 (Qmax 0 dt))%Q ∧ (Qmin 100 (Qmax 0 dt) <= 100)%Q.
Proof.
  split.
  - apply Q.min_glb; [discriminate|apply Q.le_max_l].
  - apply Q.le_min_l.
Qed.


(** The constants of the constructor stay what they are: the constructor
    sets them, and neither a bus event nor [start] changes them. *)
Lemma with_document_wf d g : game_wf g → game_wf (Game.with_document d g).
Proof. done. Qed.

Lemma deliver_all_wf g evs : game_wf g → game_wf (foldl Game.deliver g evs).
Proof. intros Hwf. by destruct (deliver_all_document g evs) as [d ->]. Qed.

Lemma new_wf v now d animations : game_wf (Game.new v now d animations).
Proof.
  unfold Game.new. cbn zeta.
  set (pc0 := PlayerController.new _).
  destruct (enterState_tables "idle" pc0) as [_ Hdur].
  destruct (PlayerController._enterState "idle" _) as [pc evs].
  cbn [fst Game.player] in *.
  set (g0 := Game.with_player pc _).
  destruct (deliver_all_document g0 evs) as [d' ->].
  split; [reflexivity|]. exact Hdur.
Qed.

Lemma start_wf g : game_wf g → game_wf (Game.start g).
Proof. done. Qed.

Lemma emit_wf e g : game_wf g → game_wf (Game.emit e g).
Proof.
  unfold Game.emit. generalize (EventBus.emit (eventName e) (Game.bus g)).
  intros hs. revert g. induction hs as [|h hs IH]; intros g Hwf; [done|].
  cbn [foldl]. apply IH.
  destruct h, e; try exact Hwf.
  - destruct (on_action_fields action (Game.player g)) as (_ & Hanim & _).
    destruct (PlayerController.on_action action (Game.player g)) as [pc evs].
    apply deliver_all_wf. destruct Hwf as [Hdt Hdur]. split; [done|].
    unfold Game.anim in *. cbn in *. by rewrite Hanim.
  - destruct (on_reset_fields (Game.player g)) as (_ & _ & _ & _ & Hanim & _).
    destruct (PlayerController.on_reset (Game.player g)) as [pc evs].
    apply deliver_all_wf. destruct Hwf as [Hdt Hdur]. split; [done|].
    unfold Game.anim in *. cbn in *.
    by rewrite Hanim, play_frameDurations.
Qed.


(** Fifty milliseconds after the start the tick makes three fixed updates,
    then resizes and draws the first idle frame. *)
Example tick_50ms :
  snd <$> Game._tick 3 50 sample_viewport sample_game
  = Some [Game.CallUpdate (1000 / 60) sample_world;
          Game.CallUpdate (1000 / 60) sample_world;
          Game.CallUpdate (1000 / 60) sample_world;
          Game.CallResize;
          Game.CallDraw (Renderer.mkSprite
                           (Frame (mkImage 0 "images/idle/1.png")) 0 0)].
Proof. vm_compute. reflexivity. Qed.

(** * EventBus *)

Section Bus.

Import EventBus.

Lemma emit_on_same name h b :
  emit name (on name h b)
  = if decide (h ∈ emit name b) then emit name b else emit name b ++ [h].
Proof.
  unfold emit, on, t in *. destruct (b !! name) as [hs|] eqn:E; cbn.
  - case_decide; [by rewrite E|]. by rewrite lookup_insert_eq.
  - rewrite decide_False by (intros []%elem_of_nil).
    by rewrite lookup_insert_eq.
Qed.

Lemma emit_on_other name name' h b :
  name' ≠ name → emit name' (on name h b) = emit name' b.
Proof.
  intros Hne. unfold emit, on, t in *. destruct (b !! name) as [hs|] eqn:E.
  - case_decide; [done|]. by rewrite lookup_insert_ne.
  - by rewrite lookup_insert_ne.
Qed.

Lemma emit_off_same name h b :
  emit name (off name h b) = filter (λ h', h' ≠ h) (emit name b).
Proof.
  unfold emit, off, t in *. destruct (b !! name) as [hs|] eqn:E; cbn.
  - by rewrite lookup_insert_eq.
  - by rewrite E.
Qed.

Lemma emit_off_other name name' h b :
  name' ≠ name → emit name' (off name h b) = emit name' b.
Proof.
  intros Hne. unfold emit, off, t in *. destruct (b !! name) as [hs|] eqn:E; [|done].
  by rewrite lookup_insert_ne.
Qed.

(** X1: [on] adds a handler at the end of the handlers of its event, unless it
    is there already; it is called once per [emit] however often it was
    registered, the handlers registered before keep their order, and no
    other event is affected. *)
Theorem bus_on_registers_once (name : string) (h : handler)
    (b : gmap string (list handler)) :
  NoDup (emit name b) →
  h ∈ emit name (on name h b) ∧
  NoDup (emit name (on name h b)) ∧
  (∃ rest, emit name (on name h b) = emit name b ++ rest ∧
           (rest = [] ∨ rest = [h])) ∧
  on name h (on name h b) = on name h b ∧
  (∀ name', name' ≠ name → emit name' (on name h b) = emit name' b).
Proof.
  intros Hnd. rewrite emit_on_same. split_and!.
  - case_decide; [done|]. apply elem_of_app. right. apply list_elem_of_here.
  - case_decide as Hold; [done|]. apply NoDup_app. split_and!; auto.
    + intros h' Hin ->%list_elem_of_singleton. by apply Hold.
    + apply NoDup_singleton.
  - case_decide; [exists []|exists [h]]; (split; [|auto]);
      [by rewrite app_nil_r|done].
  - unfold on at 1.
    destruct (on name h b !! name) as [hs|] eqn:E.
    + rewrite decide_True; [done|].
      assert (Hemit : emit name (on name h b) = hs) by (unfold emit; by rewrite E).
      rewrite <- Hemit, emit_on_same.
      case_decide; [done|]. apply elem_of_app. right. apply list_elem_of_here.
    + exfalso. unfold on, t in *. destruct (b !! name) as [hs|] eqn:E'.
      * case_decide; [congruence|]. by rewrite lookup_insert_eq in E.
      * by rewrite lookup_insert_eq in E.
  - intros name' Hne. by apply emit_on_other.
Qed.

Lemma bus_on_registers_once_witness :
  HudState ∈ emit "stateChanged" (on "stateChanged" HudState new).
Proof.
  refine (proj1 (bus_on_registers_once "stateChanged" HudState new _)).
  vm_compute. apply NoDup_nil_2.
Defined.

(** X2: [off] removes a handler from its event: [emit] no longer calls it, the
    other handlers of the event are called as before and in the same
    order, and no other event is affected. Removing a handler that was just
    added to an event it was not registered for gives back the handlers
    there were. *)
Theorem bus_off_unregisters (name : string) (h : handler)
    (b : gmap string (list handler)) :
  ¬ (h ∈ emit name (off name h b)) ∧
  (∀ h', h' ≠ h → (h' ∈ emit name (off name h b) ↔ h' ∈ emit name b)) ∧
  sublist (emit name (off name h b)) (emit name b) ∧
  (∀ name', name' ≠ name → emit name' (off name h b) = emit name' b) ∧
  (h ∉ emit name b → emit name (off name h (on name h b)) = emit name b).
Proof.
  rewrite emit_off_same. split_and!.
  - intros [Hne _]%list_elem_of_filter. done.
  - intros h' Hne. rewrite list_elem_of_filter. tauto.
  - apply sublist_filter.
  - intros name' Hne. by apply emit_off_other.
  - intros Hnot. rewrite emit_off_same, emit_on_same.
    rewrite decide_False by done. rewrite filter_app.
    rewrite (filter_cons_False _ h) by (intros Hne; by apply Hne).
    rewrite filter_nil, app_nil_r.
    induction (emit name b) as [|h' hs IH]; [done|].
    apply not_elem_of_cons in Hnot as [Hne Hnot].
    rewrite filter_cons_True by done. by rewrite IH.
Qed.

Lemma bus_off_unregisters_witness :
  emit "reset" (off "reset" OnReset (on "reset" OnReset new))
  = emit "reset" new.
Proof.
  destruct (bus_off_unregisters "reset" OnReset new) as (_ & _ & _ & _ & Hback).
  apply Hback. vm_compute. intros []%elem_of_nil.
Defined.

End Bus.

(** * AnimationPlayer: starting an animation *)

Lemma play_idempotent animation lp p :
  AnimationPlayer.play animation lp (AnimationPlayer.play animation lp p)
  = AnimationPlayer.play animation lp p.
Proof.
  destruct (AnimationPlayer.animations p !! animation) as [frames|] eqn:E.
  - destruct (play_plays animation lp p) as (Hc & Hl & Hf & _); [by eexists|].
    unfold AnimationPlayer.play at 1.
    rewrite play_animations, E, Hc, Hl, Hf, String.eqb_refl.
    by destruct lp.
  - by rewrite !(play_missing animation lp p E).
Qed.



(** * AnimationPlayer: how long a one-shot lasts *)

Section OneShot.

Import AnimationPlayer.







End OneShot.



(** * PlayerController: reset, the queue, the position *)

(** X5: A second "reset" right after a first changes nothing, and announces
    the same. *)
Theorem reset_twice (pc : PlayerController.t) :
  PlayerController.on_reset (PlayerController.on_reset pc).1
  = PlayerController.on_reset pc.
Proof.
  pose proof (play_idempotent "idle" true (PlayerController.anim pc)) as Hplay.
  unfold PlayerController.on_reset, PlayerController._enterState.
  cbn. by rewrite Hplay.
Qed.

Lemma last13_short {A : Type} (l : list A) : length l ≤ 13 → last13 l = l.
Proof. intros H. unfold last13. by replace (length l - 13) with 0 by lia. Qed.

Lemma last13_length {A : Type} (l : list A) : length (last13 l) ≤ 13.
Proof. unfold last13. rewrite length_drop. lia. Qed.

Lemma last13_app {A : Type} (l k : list A) :
  last13 (last13 l ++ k) = last13 (l ++ k).
Proof.
  unfold last13 at 2.
  rewrite <- (drop_app_le l k) by lia.
  unfold last13. rewrite drop_drop, length_drop, !length_app.
  f_equal. lia.
Qed.

(** One action through the handler: the queue is the last thirteen of
    what it was with the action at the end. *)
Lemma on_action_last13 a pc :
  a ≠ EmptyString → length (PlayerController.queue pc) ≤ 13 →
  PlayerController.queue (PlayerController.on_action (Some a) pc).1
  = last13 (PlayerController.queue pc ++ [a]).
Proof.
  intros Ha Hlen.
  destruct (on_action_queue (Some a) pc)
    as [(_ & _ & [?|?])|(a' & [= <-] & _ & -> & _)]; [congruence..|].
  unfold last13. rewrite length_app. cbn [length].
  case_decide.
  - replace (length (PlayerController.queue pc) + 1 - 13) with 1 by lia.
    destruct (PlayerController.queue pc); [cbn in *; lia|done].
  - by replace (length (PlayerController.queue pc) + 1 - 13) with 0 by lia.
Qed.

(** X6: The queue is a window on the actions that arrived: after any number of
    actions it holds the thirteen most recent entries, in the order of
    their arrival. *)
Theorem queue_keeps_most_recent (pc : PlayerController.t)
    (incoming : list string) :
  length (PlayerController.queue pc) ≤ 13 →
  Forall (λ a, a ≠ EmptyString) incoming →
  PlayerController.queue (enqueue pc incoming)
  = drop (length (PlayerController.queue pc ++ incoming) - 13)
      (PlayerController.queue pc ++ incoming).
Proof.
  intros Hlen Hin. fold (last13 (PlayerController.queue pc ++ incoming)).
  revert pc Hlen. induction Hin as [|a incoming Ha _ IH]; intros pc Hlen.
  - cbn. rewrite app_nil_r. by rewrite last13_short.
  - cbn [enqueue foldl]. fold (enqueue (PlayerController.on_action (Some a) pc).1 incoming).
    rewrite IH by (by apply on_action_capped).
    rewrite on_action_last13 by done.
    rewrite last13_app. by rewrite <- app_assoc.
Qed.

Lemma queue_keeps_most_recent_witness :
  PlayerController.queue (enqueue fresh_player ["kick"; "punch"])
  = drop (length (PlayerController.queue fresh_player ++ ["kick"; "punch"]) - 13)
      (PlayerController.queue fresh_player ++ ["kick"; "punch"]).
Proof.
  apply (queue_keeps_most_recent fresh_player ["kick"; "punch"]).
  - vm_compute. lia.
  - repeat constructor; discriminate.
Defined.

(** The two phases of [update] leave the position and the speed alone. *)
Lemma afterOneShot_position pc :
  PlayerController.x (PlayerController.afterOneShot pc).1 = PlayerController.x pc ∧
  PlayerController.y (PlayerController.afterOneShot pc).1 = PlayerController.y pc ∧
  PlayerController.speed (PlayerController.afterOneShot pc).1
  = PlayerController.speed pc.
Proof.
  unfold PlayerController.afterOneShot. destruct (_ && _); [|done].
  cbn [PlayerController._consumeNextAction].
  destruct (enterState_fields
              (default "idle" (head (PlayerController.queue pc)))
              (PlayerController.with_queue (tail (PlayerController.queue pc)) pc))
    as (_ & _ & Hx & Hy & Hs & _).
  destruct (PlayerController._enterState _ _) as [pc2 ev2]. cbn in *. auto.
Qed.

Lemma startQueued_position pc :
  PlayerController.x (PlayerController.startQueued pc).1 = PlayerController.x pc ∧
  PlayerController.y (PlayerController.startQueued pc).1 = PlayerController.y pc ∧
  PlayerController.speed (PlayerController.startQueued pc).1
  = PlayerController.speed pc.
Proof.
  unfold PlayerController.startQueued. destruct (_ && _); [|done].
  cbn [PlayerController._consumeNextAction].
  destruct (head (PlayerController.queue pc)) as [next|]; [|done].
  destruct (enterState_fields next
              (PlayerController.with_queue (tail (PlayerController.queue pc)) pc))
    as (_ & _ & Hx & Hy & Hs & _).
  destruct (PlayerController._enterState _ _) as [pc2 ev2]. cbn in *. auto.
Qed.

Lemma clamp_bounds (lo hi q : Q) :
  (lo <= Qmax lo (Qmin hi q))%Q ∧
  ((lo <= hi)%Q → (Qmax lo (Qmin hi q) <= hi)%Q) ∧
  ((lo <= q)%Q → (q <= hi)%Q → (Qmax lo (Qmin hi q) == q)%Q).
Proof.
  split_and!.
  - apply Q.le_max_l.
  - intros H. apply Q.max_lub; [done|apply Q.le_min_l].
  - intros Hlo Hhi. rewrite Q.min_r by done. by rewrite Q.max_r.
Qed.

Lemma lowest_le_highest (extent : Q) :
  (80 <= extent)%Q → (lowest extent <= highest extent)%Q.
Proof.
  intros H. unfold lowest, highest, Qdiv. change (/ 2)%Q with (1 # 2)%Q. lra.
Qed.

(** The position after [update]: the step of the state that the update
    ends in, then the clamp. *)
Lemma update_position fuel dtMs world pc pc' evs :
  PlayerController.update fuel dtMs world pc = Some (pc', evs) →
  PlayerController.x pc'
  = Qmax (lowest (worldWidth world))
      (Qmin (highest (worldWidth world))
         (if String.eqb (PlayerController.state pc') "forward"
          then PlayerController.x pc + PlayerController.speed pc * (dtMs / 1000)
          else if String.eqb (PlayerController.state pc') "backward"
          then PlayerController.x pc - PlayerController.speed pc * (dtMs / 1000)
          else PlayerController.x pc)%Q) ∧
  PlayerController.y pc'
  = Qmax (lowest (worldHeight world))
      (Qmin (highest (worldHeight world)) (PlayerController.y pc)) ∧
  PlayerController.speed pc' = PlayerController.speed pc.
Proof.
  intros Hupd.
  destruct (update_state_queue _ _ _ _ _ _ Hupd) as [Hstate _].
  apply update_phases in Hupd as (a & _ & -> & _).
  destruct (afterOneShot_position pc) as (Hx1 & Hy1 & Hs1).
  destruct (startQueued_position (PlayerController.afterOneShot pc).1)
    as (Hx2 & Hy2 & Hs2).
  set (pc2 := (PlayerController.startQueued (PlayerController.afterOneShot pc).1).1)
    in *.
  cbn [PlayerController.with_anim PlayerController.state PlayerController.x
       PlayerController.y PlayerController.speed] in *.
  split_and!.
  - unfold PlayerController.move. cbn. rewrite Hx2, Hx1, Hs2, Hs1.
    destruct (String.eqb (PlayerController.state pc2) "forward") eqn:E.
    + apply String.eqb_eq in E. by rewrite E.
    + reflexivity.
  - unfold PlayerController.move. cbn. by rewrite Hy2, Hy1.
  - unfold PlayerController.move. cbn. by rewrite Hs2, Hs1.
Qed.

(** X7: [update] moves the player only in the states forward and backward, by
    [speed] pixels per second, and then clamps the position: a coordinate
    is never less than 40 inside the lower edge of the world and, unless
    the world is too small for that, never more than 40 inside the upper
    edge. *)
Theorem update_keeps_in_world (fuel : nat) (dtMs : Q) (world : World)
    (pc pc' : PlayerController.t) (evs : list BusEvent) :
  PlayerController.update fuel dtMs world pc = Some (pc', evs) →
  PlayerController.x pc'
  = Qmax (lowest (worldWidth world))
      (Qmin (highest (worldWidth world))
         (if String.eqb (PlayerController.state pc') "forward"
          then PlayerController.x pc + PlayerController.speed pc * (dtMs / 1000)
          else if String.eqb (PlayerController.state pc') "backward"
          then PlayerController.x pc - PlayerController.speed pc * (dtMs / 1000)
          else PlayerController.x pc)%Q) ∧
  PlayerController.y pc'
  = Qmax (lowest (worldHeight world))
      (Qmin (highest (worldHeight world)) (PlayerController.y pc)) ∧
  (lowest (worldWidth world) <= PlayerController.x pc')%Q ∧
  (lowest (worldHeight world) <= PlayerController.y pc')%Q ∧
  ((80 <= worldWidth world)%Q →
   (PlayerController.x pc' <= highest (worldWidth world))%Q) ∧
  ((80 <= worldHeight world)%Q →
   (PlayerController.y pc' <= highest (worldHeight world))%Q) ∧
  PlayerController.speed pc' = PlayerController.speed pc.
Proof.
  intros Hupd. destruct (update_position _ _ _ _ _ _ Hupd) as (Hx & Hy & Hs).
  rewrite Hx, Hy at 1 2 3.
  split_and!; try done; try apply clamp_bounds;
    intros Hw; apply clamp_bounds; by apply lowest_le_highest.
Qed.

Lemma update_keeps_in_world_witness :
  (lowest 500 <= PlayerController.x walking.1)%Q ∧
  (PlayerController.x walking.1 <= highest 500)%Q ∧
  PlayerController.x walking.1
  = Qmax (lowest 500)
      (Qmin (highest 500)
         (if String.eqb (PlayerController.state walking.1) "forward"
          then PlayerController.x
                 (PlayerController.on_action (Some "forward") fresh_player).1
               + PlayerController.speed
                   (PlayerController.on_action (Some "forward") fresh_player).1
                 * ((1000 / 60) / 1000)
          else if String.eqb (PlayerController.state walking.1) "backward"
          then PlayerController.x
                 (PlayerController.on_action (Some "forward") fresh_player).1
               - PlayerController.speed
                   (PlayerController.on_action (Some "forward") fresh_player).1
                 * ((1000 / 60) / 1000)
          else PlayerController.x
                 (PlayerController.on_action (Some "forward") fresh_player).1)%Q).
Proof.
  assert (H : PlayerController.update 2 (1000 / 60) sample_world
                (PlayerController.on_action (Some "forward") fresh_player).1
              = Some (walking.1, walking.2)) by (vm_compute; reflexivity).
  destruct (update_keeps_in_world _ _ _ _ _ _ H) as (Hx & _ & Hlo & _ & Hhi & _).
  split_and!; [exact Hlo|apply Hhi; discriminate|exact Hx].
Defined.

(** One fixed step forward from the centre moves the player by 140/60 of a
    pixel. *)
Example walking_step : (PlayerController.x walking.1 == 7 # 3)%Q.
Proof. vm_compute. reflexivity. Qed.

(** * InputManager: keys and buttons *)

(** X8: The keydown listener suppresses the browser's default action for
    exactly the keys that it turns into an action; a key gives one action
    at most, and each of the five actions has a key. *)
Theorem keydown_prevents_what_it_handles (key : string) :
  ((InputManager.keydown key).1 = true ↔ (InputManager.keydown key).2 ≠ []) ∧
  length (InputManager.keydown key).2 ≤ 1 ∧
  (∀ a, a ∈ actions →
        ∃ key', (InputManager.keydown key').2 = [Action (Some a)]).
Proof.
  split_and!.
  - unfold InputManager.keydown. cbn [fst snd].
    repeat match goal with
           | |- context [String.eqb key ?s] =>
               destruct (String.eqb_spec key s) as [->|?];
               [vm_compute; split;
                [intros _ Habs; discriminate Habs|intros _; reflexivity]|]
           end.
    split; [|intros Habs; exfalso; by apply Habs].
    intros Hin%bool_decide_eq_true. exfalso.
    repeat (apply elem_of_cons in Hin as [->|Hin]; [done|]).
    by apply elem_of_nil in Hin.
  - unfold InputManager.keydown. cbn [snd].
    repeat (destruct (String.eqb key _); [cbn; lia|]). cbn. lia.
  - intros a Ha. unfold actions in Ha.
    repeat (apply elem_of_cons in Ha as [->|Ha]).
    + by exists "ArrowUp".
    + by exists "ArrowDown".
    + by exists "ArrowRight".
    + by exists "ArrowLeft".
    + by exists " ".
    + by apply elem_of_nil in Ha.
Qed.

Lemma keydown_prevents_what_it_handles_witness :
  ∃ key', (InputManager.keydown key').2 = [Action (Some "block")].
Proof.
  destruct (keydown_prevents_what_it_handles "a") as (_ & _ & Hkey).
  apply Hkey. in_list.
Defined.

(** X9: A click on an action button that was in the page when the input
    manager was constructed emits that action; a click on an element that
    was not there then is not listened to. *)
Theorem click_reaches_bus (document : gmap string string) (id : string) :
  (id ∈ actions → is_Some (document !! id) →
   Action (Some id)
   ∈ InputManager.emitted (InputManager.new document) (Click id)) ∧
  (is_Some (document !! "reset") →
   Reset ∈ InputManager.emitted (InputManager.new document) (Click "reset")) ∧
  (document !! id = None →
   InputManager.emitted (InputManager.new document) (Click id) = []).
Proof.
  cbn [InputManager.emitted InputManager.new InputManager.clickListeners].
  split_and!.
  - intros Ha [text Hdoc]. apply list_elem_of_fmap.
    exists (id, Action (Some id)). split; [done|].
    apply list_elem_of_filter. split; [done|].
    unfold InputManager._setupButtons. apply elem_of_app. left.
    apply list_elem_of_omap. exists (id, id). cbn. rewrite Hdoc. split; [|done].
    unfold actions in Ha. unfold InputManager.map.
    repeat (apply elem_of_cons in Ha as [->|Ha]; [in_list|]).
    by apply elem_of_nil in Ha.
  - intros [text Hdoc]. apply list_elem_of_fmap.
    exists ("reset", Reset). split; [done|].
    apply list_elem_of_filter. split; [done|].
    unfold InputManager._setupButtons. apply elem_of_app. right.
    rewrite Hdoc. apply list_elem_of_here.
  - intros Hnone.
    destruct (filter _ _) as [|l ls] eqn:E; [done|]. exfalso.
    assert (Hl : l ∈ filter (λ l : string * BusEvent, l.1 = id)
                   (InputManager._setupButtons document))
      by (rewrite E; apply list_elem_of_here).
    apply list_elem_of_filter in Hl as [Hid Hl]. subst id.
    apply setupButtons_listeners in Hl as [(a & -> & _ & [t Ht])|[-> [t Ht]]];
      cbn in Hnone; congruence.
Qed.

Lemma click_reaches_bus_witness :
  Action (Some "kick")
  ∈ InputManager.emitted (InputManager.new sample_document) (Click "kick").
Proof.
  destruct (click_reaches_bus sample_document "kick") as (Hkick & _).
  apply Hkick; [in_list|vm_compute; eauto].
Defined.

(** * Renderer *)

Section Rendering.

Import Renderer.

(** The size that [resize] gives the canvas for a viewport. *)
Lemma resize_size v r :
  _lastW (resize v r)
  = Z.max 1 (round (rectWidth v
                    * Qmax 1 (Qmin 2 (match devicePixelRatio v with
                                      | None => 1
                                      | Some d => if Qeq_bool d 0 then 1 else d
                                      end)))) ∧
  _lastH (resize v r)
  = Z.max 1 (round (rectHeight v
                    * Qmax 1 (Qmin 2 (match devicePixelRatio v with
                                      | None => 1
                                      | Some d => if Qeq_bool d 0 then 1 else d
                                      end)))) ∧
  logicalSize (resize v r) = logicalSize r.
Proof.
  unfold resize. cbn zeta.
  destruct (_ && _)%Z eqn:E; [|done].
  apply andb_true_iff in E as [Hw%Z.eqb_eq Hh%Z.eqb_eq]. auto.
Qed.

(** X10: [resize] gives the canvas a width and a height of at least one pixel;
    it touches the canvas only when the size changes, and then it sets the
    transform back to the identity before it scales, so that scales do not
    pile up; a second [resize] for the same viewport does nothing. *)
Theorem resize_is_stable (v : Viewport) (r : t) :
  (1 <= _lastW (resize v r))%Z ∧ (1 <= _lastH (resize v r))%Z ∧
  (canvas (resize v r) = canvas r ∨
   ∃ s, canvas (resize v r)
        = canvas r ++ [SetWidth (_lastW (resize v r));
                       SetHeight (_lastH (resize v r));
                       SetTransform 1 0 0 1 0 0; Scale s s] ∧
        s = (inject_Z (Z.min (_lastW (resize v r)) (_lastH (resize v r)))
             / logicalSize r)%Q) ∧
  resize v (resize v r) = resize v r.
Proof.
  destruct (resize_size v r) as (Hw & Hh & Hl).
  split_and!.
  - rewrite Hw. lia.
  - rewrite Hh. lia.
  - unfold resize. cbn zeta. destruct (_ && _)%Z; [by left|right].
    eexists. split; reflexivity.
  - destruct (resize_size v (resize v r)) as (Hw' & Hh' & _).
    rewrite <- Hw in Hw'. rewrite <- Hh in Hh'.
    unfold resize at 1. cbn zeta.
    rewrite <- Hw, <- Hh, !Z.eqb_refl. reflexivity.
Qed.

Lemma draw_logicalSize sprite r : logicalSize (draw sprite r) = logicalSize r.
Proof. unfold draw. by destruct (frame sprite). Qed.

(** X11: [draw] clears the logical square once and then draws the frame, if
    there is one, as a square of the logical size whose top left corner is
    at the position of the sprite; without a frame it only clears. *)
Theorem draw_clears_then_draws (sprite : Sprite) (r : t) :
  logicalSize (draw sprite r) = logicalSize r ∧
  _lastW (draw sprite r) = _lastW r ∧ _lastH (draw sprite r) = _lastH r ∧
  match frame sprite with
  | Frame img =>
      ∃ dx dy,
        canvas (draw sprite r)
        = canvas r ++ [ClearRect 0 0 (logicalSize r) (logicalSize r);
                       DrawImage img dx dy (logicalSize r) (logicalSize r)] ∧
        (dx == sx sprite)%Q ∧ (dy == sy sprite)%Q
  | _ =>
      canvas (draw sprite r)
      = canvas r ++ [ClearRect 0 0 (logicalSize r) (logicalSize r)]
  end.
Proof.
  unfold draw. destruct (frame sprite) as [| |img]; cbn; split_and!; try done.
  eexists _, _. split_and!.
  - by rewrite <- app_assoc.
  - ring.
  - ring.
Qed.

End Rendering.

(** * AssetLoader: what [loadAnimations] returns and reports *)

Lemma progressCalls_app from n m total :
  progressCalls from (n + m) total
  = progressCalls from n total ++ progressCalls (from + n) m total.
Proof.
  unfold progressCalls. by rewrite seq_app, fmap_app.
Qed.

Lemma frameCount_from k todo :
  foldl (λ sum (a : string * list nat), sum + length a.2) k todo
  = k + frameCount todo.
Proof.
  unfold frameCount. revert k. induction todo as [|e todo IH]; intros k; cbn.
  - lia.
  - rewrite (IH (k + length e.2)), (IH (length e.2)). lia.
Qed.

Lemma frameCount_cons e todo :
  frameCount (e :: todo) = length e.2 + frameCount todo.
Proof. unfold frameCount. cbn. apply frameCount_from. Qed.

Lemma cached_frames_weaken (c c' : gmap string Image) base animation frames imgs :
  c ⊆ c' →
  Forall2 (λ n img, c !! AssetLoader.frameUrl base animation n = Some img)
    frames imgs →
  Forall2 (λ n img, c' !! AssetLoader.frameUrl base animation n = Some img)
    frames imgs.
Proof.
  intros Hsub H. eapply Forall2_impl; [exact H|].
  intros n img Hn. cbn beta in *. eapply lookup_weaken; [exact Hn|exact Hsub].
Qed.

Lemma cached_frames_omap (c : gmap string Image) base animation frames imgs :
  Forall2 (λ n img, c !! AssetLoader.frameUrl base animation n = Some img)
    frames imgs →
  cachedFrames c base animation frames = imgs.
Proof.
  unfold cachedFrames. induction 1 as [|n img frames imgs Hn _ IH]; [done|].
  cbn. by rewrite Hn, IH.
Qed.

Lemma cached_frames_all (c : gmap string Image) base animation frames :
  (∀ n, n ∈ frames → is_Some (c !! AssetLoader.frameUrl base animation n)) →
  Forall2 (λ n img, c !! AssetLoader.frameUrl base animation n = Some img)
    frames (cachedFrames c base animation frames).
Proof.
  unfold cachedFrames. induction frames as [|n frames IH]; intros H; [constructor|].
  destruct (H n) as [img Himg]; [apply list_elem_of_here|].
  cbn. rewrite Himg. constructor; [done|].
  apply IH. intros m Hm. apply H. by apply list_elem_of_further.
Qed.

(** The inner loop: the images it returns are those the cache holds for
    the frames, and it reports progress once for each image obtained. *)
Lemma loadFrames_result net base animation frames done total s :
  match AssetLoader.loadFrames net base animation frames done total s with
  | (Resolved r, s') =>
      r.2 = done + length frames ∧
      Forall2 (λ n img,
                 AssetLoader.cache (AssetLoader.loader s')
                   !! AssetLoader.frameUrl base animation n = Some img)
        frames r.1 ∧
      AssetLoader.progress s'
      = AssetLoader.progress s ++ progressCalls done (length frames) total
  | (Rejected _, s') =>
      ∃ n, n < length frames ∧
           AssetLoader.progress s'
           = AssetLoader.progress s ++ progressCalls done n total
  end.
Proof.
  revert done s. induction frames as [|n frames IH]; intros done s.
  - cbn. rewrite app_nil_r, Nat.add_0_r. split_and!; auto.
  - rewrite loadFrames_cons.
    destruct (await_loadImage_cases net (AssetLoader.frameUrl base animation n)
                (AssetLoader.loader s))
      as [(i & Hi & ->)|[(Hnone & _ & ->)|(_ & _ & ->)]].
    + set (s1 := AssetLoader.mkLoadState _ _).
      specialize (IH (done + 1) s1).
      destruct (loadFrames_loaded net base animation frames (done + 1) total s1)
        as (new & _ & _ & _ & Hsub & _).
      destruct (AssetLoader.loadFrames net base animation frames (done + 1) total s1)
        as [[r|e] s2]; cbn [fst snd AssetLoader.loader] in *.
      * destruct IH as (Hd & Hall & Hprog). cbn [fst snd length]. split_and!.
        -- lia.
        -- constructor; [|done]. eapply lookup_weaken; eauto.
        -- rewrite Hprog. cbn [AssetLoader.progress s1].
           rewrite <- app_assoc. f_equal.
           change (S (length frames)) with (1 + length frames).
           rewrite (progressCalls_app done 1). f_equal.
           unfold progressCalls. cbn. by rewrite Nat.add_1_r.
      * destruct IH as (m & Hm & Hprog). exists (S m). split; [cbn; lia|].
        rewrite Hprog. cbn [AssetLoader.progress s1].
        rewrite <- app_assoc. f_equal.
        change (S m) with (1 + m).
        rewrite (progressCalls_app done 1). f_equal.
        unfold progressCalls. cbn. by rewrite Nat.add_1_r.
    + set (s1 := AssetLoader.mkLoadState _ _).
      specialize (IH (done + 1) s1).
      destruct (loadFrames_loaded net base animation frames (done + 1) total s1)
        as (new & _ & _ & _ & Hsub & _).
      destruct (AssetLoader.loadFrames net base animation frames (done + 1) total s1)
        as [[r|e] s2]; cbn [fst snd AssetLoader.loader] in *.
      * destruct IH as (Hd & Hall & Hprog). cbn [fst snd length]. split_and!.
        -- lia.
        -- constructor; [|done]. eapply lookup_weaken; [|exact Hsub].
           apply lookup_insert_eq.
        -- rewrite Hprog. cbn [AssetLoader.progress s1].
           rewrite <- app_assoc. f_equal.
           change (S (length frames)) with (1 + length frames).
           rewrite (progressCalls_app done 1). f_equal.
           unfold progressCalls. cbn. by rewrite Nat.add_1_r.
      * destruct IH as (m & Hm & Hprog). exists (S m). split; [cbn; lia|].
        rewrite Hprog. cbn [AssetLoader.progress s1].
        rewrite <- app_assoc. f_equal.
        change (S m) with (1 + m).
        rewrite (progressCalls_app done 1). f_equal.
        unfold progressCalls. cbn. by rewrite Nat.add_1_r.
    + exists 0. cbn. split; [lia|]. by rewrite app_nil_r.
Qed.

Lemma cachedAnimations_weaken (c c' : gmap string Image) base todo result :
  c ⊆ c' →
  (∀ u, u ∈ frameUrls base todo → is_Some (c !! u)) →
  cachedAnimations c' base todo result = cachedAnimations c base todo result.
Proof.
  intros Hsub. unfold cachedAnimations. revert result.
  induction todo as [|[animation frames] todo IH]; intros result Hall; [done|].
  cbn [foldl fst snd].
  assert (Hfr : ∀ n, n ∈ frames →
            is_Some (c !! AssetLoader.frameUrl base animation n)).
  { intros n Hn. apply Hall. cbn. apply elem_of_app. left.
    apply list_elem_of_fmap. eauto. }
  rewrite (cached_frames_omap c' base animation frames
             (cachedFrames c base animation frames)).
  - apply IH. intros u Hu. apply Hall. cbn. apply elem_of_app. by right.
  - eapply cached_frames_weaken; [exact Hsub|]. by apply cached_frames_all.
Qed.

(** The outer loop: its result is the table of the images that the cache
    holds at the end, and it reports progress once for each image
    obtained. *)
Lemma loadEach_result net base todo done total result s :
  match AssetLoader.loadEach net base todo done total result s with
  | (Resolved r, s') =>
      r = cachedAnimations (AssetLoader.cache (AssetLoader.loader s')) base todo
            result ∧
      AssetLoader.progress s'
      = AssetLoader.progress s ++ progressCalls done (frameCount todo) total
  | (Rejected _, s') =>
      ∃ n, n < frameCount todo ∧
           AssetLoader.progress s'
           = AssetLoader.progress s ++ progressCalls done n total
  end.
Proof.
  revert done result s.
  induction todo as [|[animation frames] todo IH]; intros done result s.
  - cbn. by rewrite app_nil_r.
  - rewrite loadEach_cons, frameCount_cons. cbn [fst snd].
    pose proof (loadFrames_result net base animation frames done total s) as H1.
    destruct (AssetLoader.loadFrames net base animation frames done total s)
      as [[r|e] s1].
    + destruct H1 as (Hd & Hall & Hprog).
      specialize (IH r.2 (<[animation := r.1]> result) s1).
      destruct (loadEach_loaded net base todo r.2 total
                  (<[animation := r.1]> result) s1)
        as (new & _ & _ & _ & Hsub & _).
      destruct (AssetLoader.loadEach net base todo r.2 total _ s1)
        as [[res|e] s2]; cbn [fst snd] in *.
      * destruct IH as (-> & Hprog2). split.
        -- unfold cachedAnimations. cbn [foldl fst snd]. f_equal. f_equal.
           symmetry. apply cached_frames_omap.
           eapply cached_frames_weaken; eauto.
        -- rewrite Hprog2, Hprog, Hd, <- app_assoc.
           by rewrite progressCalls_app.
      * destruct IH as (n & Hn & Hprog2).
        exists (length frames + n). split; [lia|].
        rewrite Hprog2, Hprog, Hd, <- app_assoc.
        by rewrite progressCalls_app.
    + destruct H1 as (n & Hn & Hprog). exists n. split; [lia|done].
Qed.

(** X12: [loadAnimations] reports progress once for every image it obtains,
    counting from 1 and always against the total number of frames; it has
    counted up to the total exactly when it resolves, and stopped short of
    it when it rejects. *)
Theorem loadAnimations_reports_progress (net : Image → bool)
    (framesByAnimation : list (string * list nat))
    (s : AssetLoader.LoadState) :
  ∃ n,
    AssetLoader.progress (AssetLoader.loadAnimations net framesByAnimation s).2
    = AssetLoader.progress s
      ++ ((λ i, (i, frameCount framesByAnimation)) <$> seq 1 n) ∧
    match (AssetLoader.loadAnimations net framesByAnimation s).1 with
    | Resolved _ => n = frameCount framesByAnimation
    | Rejected _ => n < frameCount framesByAnimation
    end.
Proof.
  unfold AssetLoader.loadAnimations. fold (frameCount framesByAnimation).
  pose proof (loadEach_result net (AssetLoader.basePath (AssetLoader.loader s))
                framesByAnimation 0 (frameCount framesByAnimation) ∅ s) as H.
  destruct (AssetLoader.loadEach _ _ _ _ _ _ _) as [[r|e] s']; cbn [fst snd].
  - destruct H as [_ Hprog]. eexists. split; [exact Hprog|done].
  - destruct H as (n & Hn & Hprog). exists n. split; [exact Hprog|done].
Qed.






Lemma loadAnimations_reports_progress_witness :
  ∃ n,
    AssetLoader.progress
      (AssetLoader.loadAnimations fourth_fails Boot.frames
         (AssetLoader.mkLoadState (AssetLoader.new (Some "images")) [])).2
    = [] ++ ((λ i, (i, frameCount Boot.frames)) <$> seq 1 n) ∧
    match (AssetLoader.loadAnimations fourth_fails Boot.frames
             (AssetLoader.mkLoadState (AssetLoader.new (Some "images")) [])).1 with
    | Resolved _ => n = frameCount Boot.frames
    | Rejected _ => n < frameCount Boot.frames
    end.
Proof.
  exact (loadAnimations_reports_progress fourth_fails Boot.frames
           (AssetLoader.mkLoadState (AssetLoader.new (Some "images")) [])).
Defined.

(** With every image in the cache the loops resolve and leave the loader
    as it is. *)
Lemma loadFrames_cached net base animation frames done total s :
  (∀ n, n ∈ frames →
        is_Some (AssetLoader.cache (AssetLoader.loader s)
                   !! AssetLoader.frameUrl base animation n)) →
  ∃ r s', AssetLoader.loadFrames net base animation frames done total s
          = (Resolved r, s') ∧
          AssetLoader.loader s' = AssetLoader.loader s.
Proof.
  revert done s. induction frames as [|n frames IH]; intros done s Hall.
  - by eexists _, _.
  - rewrite loadFrames_cons.
    destruct (Hall n) as [img Himg]; [apply list_elem_of_here|].
    destruct (loadImage_hit net _ _ _ Himg) as [_ ->].
    set (s1 := AssetLoader.mkLoadState _ _).
    destruct (IH (done + 1) s1) as (r & s2 & -> & Hl).
    { intros m Hm. apply Hall. by apply list_elem_of_further. }
    by eexists _, _.
Qed.

Lemma loadEach_cached net base todo done total result s :
  (∀ u, u ∈ frameUrls base todo →
        is_Some (AssetLoader.cache (AssetLoader.loader s) !! u)) →
  ∃ r s', AssetLoader.loadEach net base todo done total result s
          = (Resolved r, s') ∧
          AssetLoader.loader s' = AssetLoader.loader s.
Proof.
  revert done result s.
  induction todo as [|[animation frames] todo IH]; intros done result s Hall.
  - by eexists _, _.
  - rewrite loadEach_cons.
    destruct (loadFrames_cached net base animation frames done total s)
      as (r & s1 & -> & Hl1).
    { intros n Hn. apply Hall. cbn. apply elem_of_app. left.
      apply list_elem_of_fmap. eauto. }
    destruct (IH r.2 (<[animation := r.1]> result) s1) as (r2 & s2 & -> & Hl2).
    { rewrite Hl1. intros u Hu. apply Hall. cbn. apply elem_of_app. by right. }
    eexists _, _. split; [done|congruence].
Qed.

(** X14: Loading a table of animations again after it has been loaded gives the
    same images and is served from the cache alone: the loader creates no
    image and issues no request, whatever the network would do. *)
Theorem loadAnimations_again (net net' : Image → bool)
    (framesByAnimation : list (string * list nat))
    (s s' : AssetLoader.LoadState) (result : gmap string (list Image)) :
  AssetLoader.loadAnimations net framesByAnimation s = (Resolved result, s') →
  ∃ s'',
    AssetLoader.loadAnimations net' framesByAnimation s' = (Resolved result, s'') ∧
    AssetLoader.loader s'' = AssetLoader.loader s'.
Proof.
  intros Hrun.
  destruct (loadAnimations_loaded net framesByAnimation s) as [new Hloaded].
  rewrite Hrun in Hloaded. cbn [fst snd] in Hloaded.
  destruct Hloaded as (_ & _ & Hbase & _ & _ & _ & _ & Hall & _).
  unfold AssetLoader.loadAnimations in *.
  pose proof (loadEach_result net (AssetLoader.basePath (AssetLoader.loader s))
                framesByAnimation 0
                (foldl (λ sum a, sum + length a.2) 0 framesByAnimation) ∅ s) as H.
  rewrite Hrun in H. destruct H as [Hres _].
  rewrite Hbase.
  destruct (loadEach_cached net' (AssetLoader.basePath (AssetLoader.loader s))
              framesByAnimation 0
              (foldl (λ sum a, sum + length a.2) 0 framesByAnimation) ∅ s' Hall)
    as (r2 & s'' & Hrun2 & Hl).
  exists s''. split; [|done]. rewrite Hrun2. f_equal. f_equal.
  pose proof (loadEach_result net' (AssetLoader.basePath (AssetLoader.loader s))
                framesByAnimation 0
                (foldl (λ sum a, sum + length a.2) 0 framesByAnimation) ∅ s') as H.
  rewrite Hrun2 in H. destruct H as [-> _]. by rewrite Hl, Hres.
Qed.

Lemma loadAnimations_again_witness :
  ∃ s'',
    AssetLoader.loadAnimations (λ _, false) Boot.frames loaded_state
    = (Resolved loaded_animations, s'') ∧
    AssetLoader.loader s'' = AssetLoader.loader loaded_state.
Proof.
  apply (loadAnimations_again (λ _, true) (λ _, false) Boot.frames
           (AssetLoader.mkLoadState (AssetLoader.new (Some "images")) [])).
  vm_compute. reflexivity.
Defined.


(** * Game: what every reachable game satisfies *)

Lemma game_bus_emit :
  EventBus.emit "action" game_bus = [OnAction] ∧
  EventBus.emit "reset" game_bus = [OnReset] ∧
  EventBus.emit "stateChanged" game_bus = [HudState] ∧
  EventBus.emit "queueChanged" game_bus = [HudQueue].
Proof. vm_compute. done. Qed.

(** On the bus of the game an event of the player goes to the listener of
    the HUD for it, and to nothing else. *)
Lemma deliver_game_bus g e :
  Game.bus g = game_bus →
  Game.deliver g e = Game.with_document (hudShow (Game.document g) e) g.
Proof.
  intros Hbus. unfold Game.deliver. rewrite Hbus.
  destruct game_bus_emit as (Ha & Hr & Hs & Hq).
  destruct e; cbn [eventName]; rewrite ?Ha, ?Hr, ?Hs, ?Hq; reflexivity.
Qed.

Lemma deliver_all_game_bus g evs :
  Game.bus g = game_bus →
  foldl Game.deliver g evs
  = Game.with_document (foldl hudShow (Game.document g) evs) g.
Proof.
  revert g. induction evs as [|e evs IH]; intros g Hbus; cbn [foldl].
  - by rewrite with_document_id.
  - rewrite deliver_game_bus by done. rewrite IH by done. reflexivity.
Qed.

(** On the bus of the game an event from outside goes to the handler of
    the player for it, once, and the events which that handler emits go to
    the HUD. *)
Lemma emit_game_bus e g :
  Game.bus g = game_bus →
  Game.emit e g
  = match e with
    | Action a =>
        foldl Game.deliver
          (Game.with_player (PlayerController.on_action a (Game.player g)).1 g)
          (PlayerController.on_action a (Game.player g)).2
    | Reset =>
        foldl Game.deliver
          (Game.with_player (PlayerController.on_reset (Game.player g)).1 g)
          (PlayerController.on_reset (Game.player g)).2
    | _ => Game.with_document (hudShow (Game.document g) e) g
    end.
Proof.
  intros Hbus. unfold Game.emit. rewrite Hbus.
  destruct game_bus_emit as (Ha & Hr & Hs & Hq).
  destruct e; cbn [eventName]; rewrite ?Ha, ?Hr, ?Hs, ?Hq; cbn [foldl];
    try reflexivity.
  by destruct (PlayerController.on_action action (Game.player g)).
Qed.

(** ** The events of the player tell its state and its queue *)

Lemma default_last_app {A : Type} (a : A) (l1 l2 : list A) :
  default a (last (l1 ++ l2)) = default (default a (last l1)) (last l2).
Proof.
  destruct l2 as [|x l2 _] using rev_ind.
  - by rewrite app_nil_r.
  - by rewrite app_assoc, !last_snoc.
Qed.

Lemma announced_refl pc : announced pc [] pc.
Proof. done. Qed.

Lemma announced_trans pc e1 pc1 e2 pc2 :
  announced pc e1 pc1 → announced pc1 e2 pc2 → announced pc (e1 ++ e2) pc2.
Proof.
  intros [Hs1 Hq1] [Hs2 Hq2]. unfold announced, entered, queues.
  rewrite !omap_app, !default_last_app.
  unfold entered, queues in *. by rewrite <- Hs1, <- Hq1.
Qed.

Lemma on_action_announced action pc :
  announced pc (PlayerController.on_action action pc).2
    (PlayerController.on_action action pc).1.
Proof.
  destruct (on_action_fields action pc) as (Hs & _).
  destruct (on_action_queue action pc) as [(Hq & -> & _)|(a & _ & _ & _ & ->)].
  - split; [by rewrite Hs|by rewrite Hq].
  - split; [by rewrite Hs|done].
Qed.

Lemma on_reset_announced pc :
  announced pc (PlayerController.on_reset pc).2 (PlayerController.on_reset pc).1.
Proof.
  destruct (on_reset_fields pc) as (Hq & _ & _ & Hs & _ & Hev).
  unfold announced. by rewrite Hq, Hs, Hev.
Qed.

Lemma enterState_announced s pc q :
  announced pc [QueueChanged q; StateChanged s]
    (PlayerController._enterState s (PlayerController.with_queue q pc)).1.
Proof.
  destruct (enterState_fields s (PlayerController.with_queue q pc))
    as (Hs & Hq & _).
  split; [by rewrite Hs|by rewrite Hq].
Qed.

Lemma afterOneShot_announced pc :
  announced pc (PlayerController.afterOneShot pc).2
    (PlayerController.afterOneShot pc).1.
Proof.
  destruct (decide (PlayerController.state pc = "idle")) as [Hs|Hs];
    [|destruct (AnimationPlayer.finished (PlayerController.anim pc)) eqn:Hf;
      [destruct (PlayerController.queue pc) as [|a q] eqn:Hq|]].
  - rewrite afterOneShot_skip by auto. apply announced_refl.
  - rewrite afterOneShot_idle by auto. cbn [fst snd].
    destruct (enterState_fields "idle" pc) as (Hs' & Hq' & _).
    split; [by rewrite Hs'|by rewrite Hq', Hq].
  - rewrite (afterOneShot_next pc a q) by auto. apply enterState_announced.
  - rewrite afterOneShot_skip by auto. apply announced_refl.
Qed.

Lemma startQueued_announced pc :
  announced pc (PlayerController.startQueued pc).2
    (PlayerController.startQueued pc).1.
Proof.
  destruct (decide (PlayerController.state pc = "idle")) as [Hs|Hs];
    [destruct (PlayerController.queue pc) as [|a q] eqn:Hq|].
  - rewrite startQueued_skip by auto. apply announced_refl.
  - rewrite (startQueued_next pc a q) by auto. apply enterState_announced.
  - rewrite startQueued_skip by auto. apply announced_refl.
Qed.

Lemma update_announced fuel dtMs world pc pc' evs :
  PlayerController.update fuel dtMs world pc = Some (pc', evs) →
  announced pc evs pc'.
Proof.
  intros H. apply update_phases in H as (a & _ & -> & ->).
  pose proof (announced_trans _ _ _ _ _ (afterOneShot_announced pc)
                (startQueued_announced (PlayerController.afterOneShot pc).1))
    as [Hs Hq].
  split; [exact Hs|exact Hq].
Qed.

(** ** The HUD follows the events *)

Lemma setText_written id s d t : setText id s d !! id = Some t → t = s.
Proof.
  unfold setText. destruct (d !! id) as [t0|] eqn:E.
  - rewrite lookup_insert_eq. congruence.
  - congruence.
Qed.

Lemma renderQueue_text q d :
  Game.renderQueue q d = setText "hudQueue" (queueText q) d.
Proof. by destruct q. Qed.

Lemma hudShow_state d evs s0 :
  (∀ t, d !! "hudState" = Some t → t = s0) →
  ∀ t, foldl hudShow d evs !! "hudState" = Some t →
       t = default s0 (last (entered evs)).
Proof.
  revert d s0. induction evs as [|e evs IH]; intros d s0 Hd t; cbn [foldl].
  - apply Hd.
  - intros Ht. destruct e as [a| |s|q]; cbn [hudShow] in Ht.
    + by apply (IH d s0).
    + by apply (IH d s0).
    + apply (IH _ s) in Ht; [|intros t'; apply setText_written].
      change (entered (StateChanged s :: evs)) with (s :: entered evs).
      rewrite last_cons. by destruct (last _).
    + apply (IH _ s0) in Ht; [done|]. intros t'.
      rewrite renderQueue_text, setText_other by done. apply Hd.
Qed.

Lemma hudShow_queue d evs q0 :
  (∀ t, d !! "hudQueue" = Some t → t = queueText q0) →
  ∀ t, foldl hudShow d evs !! "hudQueue" = Some t →
       t = queueText (default q0 (last (queues evs))).
Proof.
  revert d q0. induction evs as [|e evs IH]; intros d q0 Hd t; cbn [foldl].
  - apply Hd.
  - intros Ht. destruct e as [a| |s|q]; cbn [hudShow] in Ht.
    + by apply (IH d q0).
    + by apply (IH d q0).
    + apply (IH _ q0) in Ht; [done|]. intros t'.
      rewrite setText_other by done. apply Hd.
    + apply (IH _ q) in Ht;
        [|intros t'; rewrite renderQueue_text; apply setText_written].
      change (queues (QueueChanged q :: evs)) with (q :: queues evs).
      rewrite last_cons. by destruct (last _).
Qed.

Lemma hud_follows g pc' evs :
  hud_shows g → announced (Game.player g) evs pc' →
  hud_shows (Game.with_document (foldl hudShow (Game.document g) evs)
               (Game.with_player pc' g)).
Proof.
  intros [Hs Hq] [Hs' Hq']. split; cbn; intros t Ht.
  - rewrite Hs'. eapply hudShow_state; eauto.
  - rewrite Hq'. eapply hudShow_queue; eauto.
Qed.

(** ** The constructor *)

Lemma new_shape v now d animations :
  Game.new v now d animations
  = Game.mk game_bus (InputManager.new d) (Renderer.new v) (1000 / 60) 0 now 0
      0 0
      (PlayerController._enterState "idle"
         (PlayerController.new
            (AnimationPlayer.new animations Game.frameDurations))).1
      (Game.renderQueue [] (setText "hudState" "idle" d)) 0.
Proof. reflexivity. Qed.

Lemma new_logicalSize v : Renderer.logicalSize (Renderer.new v) = 500%Q.
Proof. unfold Renderer.new. by destruct (resize_size v (Renderer.mk 500 0 0 [])) as (_ & _ & ->). Qed.

Lemma new_inv v now d animations :
  game_inv d animations (Game.new v now d animations).
Proof.
  pose proof (new_wf v now d animations) as Hwf.
  rewrite new_shape in *.
  set (pc0 := PlayerController.new _) in *.
  destruct (enterState_fields "idle" pc0) as (Hs & Hq & Hx & Hy & _).
  constructor;
    cbn [Game.bus Game.input Game.player Game.document Game.accumulator
         Game._fpsTime Game._fpsFrames Game.fps Game.renderer].
  - reflexivity.
  - reflexivity.
  - exact Hwf.
  - apply reach_enter_idle, reach_new.
  - split; cbn [Game.document Game.player]; intros t Ht.
    + rewrite renderQueue_text, setText_other in Ht by done.
      apply setText_written in Ht. by rewrite Hs.
    + rewrite renderQueue_text in Ht. apply setText_written in Ht.
      by rewrite Hq.
  - split; [discriminate|reflexivity].
  - split_and!; [discriminate|reflexivity|discriminate].
  - left. reflexivity.
  - apply new_logicalSize.
  - rewrite Hx, Hy. split_and!; [discriminate|discriminate|reflexivity].
Qed.

(** ** [start], resizes and DOM events *)

Lemma start_inv d animations g :
  game_inv d animations g → game_inv d animations (Game.start g).
Proof. intros []. by constructor. Qed.

Lemma window_resize_inv d animations v g :
  game_inv d animations g → game_inv d animations (window_resize v g).
Proof.
  intros []. constructor; try done.
  cbn. by destruct (resize_size v (Game.renderer g)) as (_ & _ & ->).
Qed.

(** The events that the input manager emits: actions among the five, and
    resets. *)
Lemma emitted_kinds document ev e :
  e ∈ InputManager.emitted (InputManager.new document) ev →
  (∃ a, e = Action (Some a) ∧ a ∈ actions) ∨ e = Reset.
Proof.
  destruct ev as [key|id]; cbn [InputManager.emitted].
  - intros H. left. by apply keydown_emits in H.
  - intros H. apply list_elem_of_fmap in H as ([id' e'] & -> & H).
    apply list_elem_of_filter in H as [_ H].
    apply setupButtons_listeners in H
      as [(a & [= -> ->] & Ha & _)|([= -> ->] & _)]; eauto.
Qed.

Lemma player_event_inv d animations g pc evs :
  game_inv d animations g →
  reachable (λ a, a ∈ actions) animations Game.frameDurations pc →
  AnimationPlayer.frameDurations (PlayerController.anim pc)
  = AnimationPlayer.frameDurations (PlayerController.anim (Game.player g)) →
  announced (Game.player g) evs pc →
  ((-210 <= PlayerController.x pc)%Q ∧ (PlayerController.x pc <= 210)%Q ∧
   PlayerController.y pc = 0%Q) →
  game_inv d animations (foldl Game.deliver (Game.with_player pc g) evs).
Proof.
  intros [] Hreach Hdur Hann Hpos.
  rewrite deliver_all_game_bus by done.
  constructor; try done.
  - destruct inv_wf0 as [Hdt Hd]. split; [done|].
    unfold Game.anim in *. cbn. congruence.
  - exact (hud_follows g pc evs inv_hud0 Hann).
Qed.

Lemma emit_inv d animations e g :
  game_inv d animations g →
  (∃ a, e = Action (Some a) ∧ a ∈ actions) ∨ e = Reset →
  game_inv d animations (Game.emit e g).
Proof.
  intros Hinv He. pose proof Hinv as [].
  rewrite emit_game_bus by done.
  destruct He as [(a & -> & Ha)| ->].
  - destruct (on_action_fields (Some a) (Game.player g)) as (_ & Hanim & Hx & Hy).
    apply player_event_inv; auto.
    + apply reach_action; [done|]. by intros a' [= <-].
    + by rewrite Hanim.
    + apply on_action_announced.
    + by rewrite Hx, Hy.
  - destruct (on_reset_fields (Game.player g)) as (_ & Hx & Hy & _ & Hanim & _).
    apply player_event_inv; auto.
    + by apply reach_reset.
    + by rewrite Hanim, play_frameDurations.
    + apply on_reset_announced.
    + rewrite Hx, Hy. split_and!; [discriminate|discriminate|reflexivity].
Qed.

Lemma emit_all_inv d animations es g :
  game_inv d animations g →
  Forall (λ e, (∃ a, e = Action (Some a) ∧ a ∈ actions) ∨ e = Reset) es →
  game_inv d animations (foldl (λ g' e, Game.emit e g') g es).
Proof.
  intros Hinv Hes. revert g Hinv.
  induction Hes as [|e es He _ IH]; intros g Hinv; [done|].
  cbn [foldl]. apply IH. by apply emit_inv.
Qed.

Lemma handle_inv d animations ev g :
  game_inv d animations g → game_inv d animations (handle ev g).
Proof.
  intros Hinv. unfold handle. apply emit_all_inv; [done|].
  apply Forall_forall. intros e He.
  rewrite (inv_input _ _ _ Hinv) in He. by apply emitted_kinds in He.
Qed.

(** ** The fixed updates of a tick *)

Lemma game_player_inv d animations g :
  game_inv d animations g → player_inv d animations g.
Proof. intros []. by constructor. Qed.

Lemma world_500_bounds :
  (-210 <= lowest 500)%Q ∧ (highest 500 <= 210)%Q ∧
  (lowest 500 <= highest 500)%Q ∧
  Qmax (lowest 500) (Qmin (highest 500) 0) = 0%Q.
Proof. split_and!; [discriminate..|reflexivity]. Qed.

Lemma fixed_step_inv d animations g pc evs inner :
  player_inv d animations g →
  PlayerController.update inner (Game.fixedDt g) (game_world g) (Game.player g)
  = Some (pc, evs) →
  player_inv d animations
    (Game.with_accumulator
       (Game.accumulator (foldl Game.deliver (Game.with_player pc g) evs)
        - Game.fixedDt (foldl Game.deliver (Game.with_player pc g) evs))%Q
       (foldl Game.deliver (Game.with_player pc g) evs)).
Proof.
  intros Hinv Hupd. pose proof Hinv as [].
  pose proof (fixed_step_wf g pc evs inner pinv_wf0 Hupd) as Hwf.
  rewrite deliver_all_game_bus in * by done.
  constructor; try done.
  - eapply reach_update; eauto.
  - exact (hud_follows g pc evs pinv_hud0 (update_announced _ _ _ _ _ _ Hupd)).
  - cbn. destruct (update_position _ _ _ _ _ _ Hupd) as (Hx & Hy & _).
    unfold game_world in Hx, Hy. rewrite pinv_world0 in Hx, Hy. cbn in Hx, Hy.
    destruct pinv_position0 as (_ & _ & Hy0). rewrite Hy0 in Hy.
    destruct world_500_bounds as (Hlo & Hhi & Hle & Hzero).
    rewrite Hx, Hy. split_and!.
    + eapply Qle_trans; [exact Hlo|]. apply clamp_bounds.
    + eapply Qle_trans; [|exact Hhi]. by apply clamp_bounds.
    + exact Hzero.
Qed.

Lemma fixedSteps_inv d animations inner k g g' :
  player_inv d animations g → fixedSteps inner k g = Some g' →
  player_inv d animations g'.
Proof.
  revert g. induction k as [|k IH]; intros g Hinv; cbn [fixedSteps].
  - by intros [= <-].
  - fold (game_world g).
    destruct (PlayerController.update inner _ _ _) as [[pc evs]|] eqn:Hupd;
      [|done].
    cbn [mbind option_bind]. apply IH. eapply fixed_step_inv; eauto.
Qed.

Lemma fixed_step_50_3 : (1000 / 60 == 50 # 3)%Q.
Proof. reflexivity. Qed.

(** A tick keeps what every reachable game satisfies, and makes six fixed
    updates at most. *)
Lemma tick_inv d animations fuel ts v g g' calls :
  game_inv d animations g →
  Game._tick fuel ts v g = Some (g', calls) →
  game_inv d animations g' ∧
  ∃ k sprite,
    k ≤ 6 ∧
    calls = replicate k (Game.CallUpdate (1000 / 60) (mkWorld 500 500))
            ++ [Game.CallResize; Game.CallDraw sprite].
Proof.
  intros Hinv. pose proof Hinv as [].
  assert (Hstart : player_inv d animations (tick_start ts g)).
  { by constructor. }
  unfold Game._tick.
  change (Game.mk (Game.bus g) _ _ _ _ _ _ _ _ _ _ _) with (tick_start ts g).
  destruct (Game.fixedUpdates fuel fuel (tick_start ts g))
    as [[g2 calls2]|] eqn:Hrun; [|done].
  cbn [mbind option_bind].
  apply fixedUpdates_steps in Hrun
    as (k & -> & Hsteps & Hframe & Hlt & Heq & Hpos).
  pose proof (fixedSteps_inv _ _ _ _ _ _ Hstart Hsteps) as [].
  destruct Hframe as (_ & _ & Hrend & Hdt & _ & Hfps & Hfr & Hft & _).
  destruct (clamped_bounds (ts - Game.lastTs g)) as [Hlo Hhi].
  destruct inv_wf0 as [Hfixed _].
  cbn [tick_start Game.fixedDt Game.accumulator Game.fps Game._fpsFrames
       Game._fpsTime Game.renderer] in Heq, Hlt, Hdt, Hfps, Hfr, Hft, Hrend.
  rewrite Hfixed in Heq, Hlt.
  set (c := Qmin 100 (Qmax 0 (ts - Game.lastTs g))) in *.
  destruct inv_accumulator0 as [Hacc0 Hacc1].
  destruct inv_fpsTime0 as (Ht0 & Ht1 & Ht2).
  assert (Hk : k ≤ 6 ∧ (0 <= Game.accumulator g2)%Q).
  { destruct k as [|k].
    - split; [lia|]. change (inject_Z (Z.of_nat 0)) with 0%Q in Heq. lra.
    - assert (Hge := Hpos ltac:(lia)). split; [|done].
      rewrite fixed_step_50_3 in *.
      assert (Hlt7 : (inject_Z (Z.of_nat (S k)) < inject_Z 7)%Q).
      { change (inject_Z 7) with 7%Q. lra. }
      rewrite <- Zlt_Qlt in Hlt7. lia. }
  destruct Hk as [Hk Hacc2].
  assert (Hworld : game_world (tick_start ts g) = mkWorld 500 500).
  { unfold game_world. cbn. by rewrite inv_world0. }
  rewrite Hworld. cbn [tick_start Game.fixedDt]. rewrite Hfixed.
  intros [= <- <-]. split; [|by eexists k, _].
  assert (Htime : (Game._fpsTime g2 + c
                   <= 100 * inject_Z (Z.of_nat (S (Game._fpsFrames g2))))%Q).
  { rewrite Hft, Hfr, inject_nat_succ. lra. }
  assert (Hsize : Renderer.logicalSize
                    (Renderer.draw
                       (Renderer.mkSprite (AnimationPlayer.getFrame (Game.anim g2))
                          (PlayerController.x (Game.player g2))
                          (PlayerController.y (Game.player g2)))
                       (Renderer.resize v (Game.renderer g2))) = 500%Q).
  { rewrite draw_logicalSize.
    by destruct (resize_size v (Game.renderer g2)) as (_ & _ & ->). }
  destruct (Qle_bool 1000 (Game._fpsTime g2 + c)) eqn:E.
  - apply Qle_bool_true in E. constructor; try done.
    + destruct pinv_hud0 as [Hs Hq]. split; cbn; intros t Ht;
        unfold Game._setFps in Ht; rewrite setText_other in Ht by done; auto.
    + right. cbn. apply Qle_shift_div_l; lra.
  - apply Qle_bool_false in E. constructor; try done.
    + cbn. rewrite Hft in *. split_and!; [lra|lra|exact Htime].
    + cbn. by rewrite Hfps.
Qed.

(** ** Every reachable game *)

Lemma reachable_inv d animations g :
  game_reachable d animations g → game_inv d animations g.
Proof.
  induction 1 as [v now|g _ IH|ev g _ IH|v g _ IH|fuel ts v g g' calls _ IH Htick].
  - apply new_inv.
  - by apply start_inv.
  - by apply handle_inv.
  - by apply window_resize_inv.
  - by destruct (tick_inv _ _ _ _ _ _ _ _ IH Htick).
Qed.

Lemma sample_game_reachable :
  game_reachable loading_document loaded_animations sample_game.
Proof. apply game_start, game_new. Qed.

Lemma kick_pressed_reachable :
  game_reachable loading_document loaded_animations kick_pressed.
Proof. apply game_handle, sample_game_reachable. Qed.

Lemma kick_ticked_reachable :
  game_reachable loading_document loaded_animations kick_ticked.1.
Proof.
  apply (game_tick _ _ 3 50 sample_viewport kick_pressed _ kick_ticked.2).
  - apply kick_pressed_reachable.
  - vm_compute. reflexivity.
Qed.

(** X15: In the running game the input sources feed the state machine what it
    expects: the state of the player is always one of the six states, and
    its queue holds at most thirteen actions, each one of the five. *)
Theorem game_player_is_well_formed (d : gmap string string)
    (animations : gmap string (list Image)) (g : Game.t) :
  game_reachable d animations g →
  PlayerController.state (Game.player g) ∈ states ∧
  length (PlayerController.queue (Game.player g)) ≤ 13 ∧
  Forall (λ a, a ∈ actions) (PlayerController.queue (Game.player g)).
Proof.
  intros Hg. apply reachable_inv in Hg as [].
  destruct (reachable_six_states _ _ _ inv_player0) as [Hs Hq].
  split_and!; [done| |done]. by eapply reachable_queue_capped.
Qed.

Lemma game_player_is_well_formed_witness :
  PlayerController.state (Game.player kick_ticked.1) ∈ states ∧
  length (PlayerController.queue (Game.player kick_ticked.1)) ≤ 13 ∧
  Forall (λ a, a ∈ actions) (PlayerController.queue (Game.player kick_ticked.1)).
Proof.
  apply (game_player_is_well_formed loading_document loaded_animations).
  apply kick_ticked_reachable.
Defined.

(** X16: The HUD never lags: whenever the page has the elements for them, the
    state label shows the state of the player and the queue label shows its
    queue, after the constructor and after every event and tick. *)
Theorem hud_shows_the_player (d : gmap string string)
    (animations : gmap string (list Image)) (g : Game.t) :
  game_reachable d animations g →
  (∀ t, Game.document g !! "hudState" = Some t →
        t = PlayerController.state (Game.player g)) ∧
  (∀ t, Game.document g !! "hudQueue" = Some t →
        t = queueText (PlayerController.queue (Game.player g))).
Proof. intros Hg. apply reachable_inv in Hg as []. exact inv_hud0. Qed.

(** X17: A DOM event reaches the player through the bus: each event that the
    input manager emits is handled by the player's handler for it, once and
    in order. *)
Theorem dom_event_reaches_player (d : gmap string string)
    (animations : gmap string (list Image)) (g : Game.t) (ev : DomEvent) :
  game_reachable d animations g →
  Game.player (handle ev g)
  = foldl player_handles (Game.player g)
      (InputManager.emitted (InputManager.new d) ev).
Proof.
  intros Hg. apply reachable_inv in Hg. unfold handle.
  rewrite (inv_input _ _ _ Hg).
  assert (Hkinds : Forall (λ e, (∃ a, e = Action (Some a) ∧ a ∈ actions)
                                ∨ e = Reset)
                     (InputManager.emitted (InputManager.new d) ev)).
  { apply Forall_forall. intros e He. by apply emitted_kinds in He. }
  revert g Hg. induction Hkinds as [|e es He _ IH]; intros g Hg; [done|].
  cbn [foldl]. rewrite IH by (by apply emit_inv). f_equal.
  rewrite emit_game_bus by apply Hg.
  destruct e; try done; by rewrite deliver_all_game_bus by apply Hg.
Qed.


(** X19: The FPS counter reports once its window has taken in a second of
    clamped time, and what it reports is never below 10: a tick counts for
    100 ms at most, so a window never holds fewer than ten ticks. *)
Theorem fps_is_at_least_10 (d : gmap string string)
    (animations : gmap string (list Image)) (g : Game.t) :
  game_reachable d animations g →
  ((Game.fps g == 0)%Q ∨ (10 <= Game.fps g)%Q) ∧
  (0 <= Game._fpsTime g)%Q ∧ (Game._fpsTime g < 1000)%Q ∧
  (Game._fpsTime g <= 100 * inject_Z (Z.of_nat (Game._fpsFrames g)))%Q.
Proof. intros Hg. by apply reachable_inv in Hg as []. Qed.

(** X20: The player of the game stays on the ground and on the canvas: its [y]
    is always 0, and its [x] is always within 210 pixels of the centre, 40
    inside the edges of the world of 500. *)
Theorem player_stays_on_canvas (d : gmap string string)
    (animations : gmap string (list Image)) (g : Game.t) :
  game_reachable d animations g →
  (-210 <= PlayerController.x (Game.player g))%Q ∧
  (PlayerController.x (Game.player g) <= 210)%Q ∧
  PlayerController.y (Game.player g) = 0%Q.
Proof. intros Hg. by apply reachable_inv in Hg as []. Qed.

Lemma hud_shows_the_player_witness :
  (∀ t, Game.document kick_ticked.1 !! "hudState" = Some t →
        t = PlayerController.state (Game.player kick_ticked.1)) ∧
  (∀ t, Game.document kick_ticked.1 !! "hudQueue" = Some t →
        t = queueText (PlayerController.queue (Game.player kick_ticked.1))).
Proof.
  apply (hud_shows_the_player loading_document loaded_animations).
  apply kick_ticked_reachable.
Defined.

Lemma dom_event_reaches_player_witness :
  Game.player (handle (KeyDown "ArrowUp") sample_game)
  = foldl player_handles (Game.player sample_game)
      (InputManager.emitted (InputManager.new loading_document)
         (KeyDown "ArrowUp")).
Proof.
  apply (dom_event_reaches_player loading_document loaded_animations).
  apply sample_game_reachable.
Defined.


Lemma fps_is_at_least_10_witness :
  ((Game.fps kick_ticked.1 == 0)%Q ∨ (10 <= Game.fps kick_ticked.1)%Q) ∧
  (0 <= Game._fpsTime kick_ticked.1)%Q ∧ (Game._fpsTime kick_ticked.1 < 1000)%Q ∧
  (Game._fpsTime kick_ticked.1
   <= 100 * inject_Z (Z.of_nat (Game._fpsFrames kick_ticked.1)))%Q.
Proof.
  apply (fps_is_at_least_10 loading_document loaded_animations).
  apply kick_ticked_reachable.
Defined.

Lemma player_stays_on_canvas_witness :
  (-210 <= PlayerController.x (Game.player kick_ticked.1))%Q ∧
  (PlayerController.x (Game.player kick_ticked.1) <= 210)%Q ∧
  PlayerController.y (Game.player kick_ticked.1) = 0%Q.
Proof.
  apply (player_stays_on_canvas loading_document loaded_animations).
  apply kick_ticked_reachable.
Defined.

(** The up arrow, then a tick: the player kicks, and the HUD would say
    so. *)
Example kick_from_the_keyboard :
  PlayerController.state (Game.player kick_ticked.1) = "kick" ∧
  PlayerController.queue (Game.player kick_ticked.1) = [] ∧
  AnimationPlayer.getFrame (Game.anim kick_ticked.1)
  = Frame (mkImage 8 "images/kick/1.png").
Proof. vm_compute. done. Qed.

(** * Boot: when every image loads *)



(** * The animation on screen *)

Lemma loaded_animations_all : all_loaded loaded_animations.
Proof.
  intros s Hs. unfold states, actions in Hs.
  repeat (apply elem_of_cons in Hs as [-> | Hs];
          [eexists; split; [vm_compute; reflexivity|discriminate]|]).
  by apply elem_of_nil in Hs.
Qed.

Lemma all_loaded_is_Some animations s :
  all_loaded animations → s ∈ states → is_Some (animations !! s).
Proof. intros H Hs. destruct (H s Hs) as (frames & -> & _). by eexists. Qed.

Lemma enterState_shows s pc :
  is_Some (AnimationPlayer.animations (PlayerController.anim pc) !! s) →
  shows_state (PlayerController._enterState s pc).1.
Proof.
  intros Hs. unfold shows_state.
  rewrite enterState_anim.
  destruct (enterState_fields s pc) as (-> & _).
  by destruct (play_plays s (String.eqb s "idle") (PlayerController.anim pc) Hs)
    as (-> & -> & _).
Qed.

Lemma enterState_phase_inv anims s q pc :
  (∀ s, s ∈ states → is_Some (anims !! s)) →
  s ∈ states → Forall (λ a, a ∈ actions) q →
  AnimationPlayer.animations (PlayerController.anim pc) = anims →
  phase_inv anims (PlayerController._enterState s (PlayerController.with_queue q pc)).1.
Proof.
  intros Hall Hs Hq Ha. unfold phase_inv. split_and!.
  - rewrite enterState_anim, play_animations. exact Ha.
  - by destruct (enterState_fields s (PlayerController.with_queue q pc))
      as (_ & -> & _).
  - apply enterState_shows. cbn. rewrite Ha. by apply Hall.
Qed.

Lemma afterOneShot_phase_inv anims pc :
  (∀ s, s ∈ states → is_Some (anims !! s)) →
  phase_inv anims pc → phase_inv anims (PlayerController.afterOneShot pc).1.
Proof.
  intros Hall (Ha & Hq & Hs).
  destruct (String.eqb_spec (PlayerController.state pc) "idle") as [Hi|Hi];
    [by rewrite afterOneShot_skip by auto|].
  destruct (AnimationPlayer.finished (PlayerController.anim pc)) eqn:Hf;
    [|by rewrite afterOneShot_skip by auto].
  destruct (PlayerController.queue pc) as [|a q] eqn:Eq.
  - rewrite afterOneShot_idle by done. cbn [fst].
    replace pc with (PlayerController.with_queue [] pc) at 1
      by (destruct pc; cbn in Eq; by subst).
    apply enterState_phase_inv; [done|apply list_elem_of_here|done..].
  - rewrite (afterOneShot_next pc a q) by done. cbn [fst].
    inversion Hq; subst.
    apply enterState_phase_inv; [done|by apply actions_states|done..].
Qed.

Lemma startQueued_phase_inv anims pc :
  (∀ s, s ∈ states → is_Some (anims !! s)) →
  phase_inv anims pc → phase_inv anims (PlayerController.startQueued pc).1.
Proof.
  intros Hall Hinv. pose proof Hinv as (Ha & Hq & Hs).
  destruct (String.eqb_spec (PlayerController.state pc) "idle") as [Hi|Hi];
    [|by rewrite startQueued_skip by auto].
  destruct (PlayerController.queue pc) as [|a q] eqn:Eq;
    [by rewrite startQueued_skip by auto|].
  rewrite (startQueued_next pc a q) by done. cbn [fst].
  inversion Hq; subst.
  apply enterState_phase_inv; [done|by apply actions_states|done..].
Qed.

Lemma update_phase_inv anims fuel dtMs world pc pc' evs :
  (∀ s, s ∈ states → is_Some (anims !! s)) →
  phase_inv anims pc →
  PlayerController.update fuel dtMs world pc = Some (pc', evs) →
  shows_state pc'.
Proof.
  intros Hall Hinv Hupd.
  destruct (update_phases _ _ _ _ _ _ Hupd) as (a & Hanim & -> & _).
  destruct (startQueued_phase_inv _ _ Hall (afterOneShot_phase_inv _ _ Hall Hinv)) as (_ & _ & Hc & Hl).
  destruct (update_frame _ _ _ _ Hanim) as (_ & _ & Hc' & Hl').
  split; cbn; congruence.
Qed.

Lemma reachable_shows_state anims durs pc :
  (∀ s, s ∈ states → is_Some (anims !! s)) →
  reachable (λ a, a ∈ actions) anims durs pc →
  shows_state pc.
Proof.
  intros Hall Hreach.
  induction Hreach as [|pc Hr IH|action pc Hr IH Hok|pc Hr IH
                      |fuel dtMs world pc pc' evs Hr IH Hupd].
  - done.
  - apply enterState_shows. rewrite (reachable_animations _ _ _ _ Hr).
    apply Hall, list_elem_of_here.
  - unfold shows_state.
    by destruct (on_action_fields action pc) as (-> & -> & _).
  - unfold shows_state.
    destruct (on_reset_fields pc) as (_ & _ & _ & -> & -> & _).
    destruct (play_plays "idle" true (PlayerController.anim pc))
      as (-> & -> & _); [|done].
    rewrite (reachable_animations _ _ _ _ Hr). apply Hall, list_elem_of_here.
  - eapply (update_phase_inv anims); [exact Hall| |exact Hupd].
    unfold phase_inv. split_and!; [by eapply reachable_animations| |exact IH].
    by destruct (reachable_six_states _ _ _ Hr).
Qed.

Lemma afterOneShot_anim anims durs pc :
  anim_reachable anims durs (PlayerController.anim pc) →
  anim_reachable anims durs
    (PlayerController.anim (PlayerController.afterOneShot pc).1).
Proof.
  intros H.
  destruct (String.eqb_spec (PlayerController.state pc) "idle") as [Hi|Hi];
    [by rewrite afterOneShot_skip by auto|].
  destruct (AnimationPlayer.finished (PlayerController.anim pc)) eqn:Hf;
    [|by rewrite afterOneShot_skip by auto].
  destruct (PlayerController.queue pc) as [|a q] eqn:Eq.
  - rewrite afterOneShot_idle by done. cbn [fst].
    rewrite enterState_anim. by constructor.
  - rewrite (afterOneShot_next pc a q) by done. cbn [fst].
    rewrite enterState_anim. by constructor.
Qed.

Lemma startQueued_anim anims durs pc :
  anim_reachable anims durs (PlayerController.anim pc) →
  anim_reachable anims durs
    (PlayerController.anim (PlayerController.startQueued pc).1).
Proof.
  intros H.
  destruct (String.eqb_spec (PlayerController.state pc) "idle") as [Hi|Hi];
    [|by rewrite startQueued_skip by auto].
  destruct (PlayerController.queue pc) as [|a q] eqn:Eq;
    [by rewrite startQueued_skip by auto|].
  rewrite (startQueued_next pc a q) by done. cbn [fst].
  rewrite enterState_anim. by constructor.
Qed.

(** The animation player of a controller is one that [play] and [update]
    made. *)
Lemma reachable_anim ok anims durs pc :
  reachable ok anims durs pc →
  anim_reachable anims durs (PlayerController.anim pc).
Proof.
  induction 1 as [|pc _ IH|action pc _ IH Hok|pc _ IH
                 |fuel dtMs world pc pc' evs _ IH Hupd].
  - constructor.
  - rewrite enterState_anim. by constructor.
  - by destruct (on_action_fields action pc) as (_ & -> & _).
  - destruct (on_reset_fields pc) as (_ & _ & _ & _ & -> & _). by constructor.
  - destruct (update_phases _ _ _ _ _ _ Hupd) as (a & Hanim & -> & _).
    cbn. eapply anim_reach_update; [|exact Hanim].
    by apply startQueued_anim, afterOneShot_anim.
Qed.

(** The frame of a controller whose animations are all loaded. *)
Lemma reachable_frame anims durs pc :
  all_loaded anims →
  reachable (λ a, a ∈ actions) anims durs pc →
  ∃ frames img,
    anims !! PlayerController.state pc = Some frames ∧
    frames !! AnimationPlayer.frameIndex (PlayerController.anim pc) = Some img ∧
    AnimationPlayer.getFrame (PlayerController.anim pc) = Frame img.
Proof.
  intros Hall Hreach.
  destruct (reachable_shows_state anims durs pc) as [Hc _];
    [intros s Hs; by apply all_loaded_is_Some|done|].
  destruct (reachable_six_states _ _ _ Hreach) as [Hs _].
  destruct (Hall _ Hs) as (frames & Hframes & Hne).
  pose proof (anim_reachable_in_bounds _ _ _ (reachable_anim _ _ _ _ Hreach))
    as Hb.
  pose proof (reachable_animations _ _ _ _ Hreach) as Ha.
  assert (Hlt : AnimationPlayer.frameIndex (PlayerController.anim pc)
                < length frames).
  { apply Hb; [|done]. by rewrite Ha, Hc. }
  destruct (lookup_lt_is_Some_2 _ _ Hlt) as [img Himg].
  exists frames, img. split_and!; [done..|].
  unfold AnimationPlayer.getFrame. rewrite Ha, Hc, Hframes, Himg.
  destruct frames; [done|]. done.
Qed.

(** X22: With an animation for each of the six states, the animation that
    plays in a game is always that of the state of the player; it loops in
    "idle" and is a one-shot in every other state. *)
Theorem animation_follows_state (d : gmap string string)
    (animations : gmap string (list Image)) (g : Game.t) :
  (∀ s, s ∈ states → is_Some (animations !! s)) →
  game_reachable d animations g →
  AnimationPlayer.current (Game.anim g) = PlayerController.state (Game.player g) ∧
  AnimationPlayer.loop (Game.anim g)
  = String.eqb (PlayerController.state (Game.player g)) "idle".
Proof.
  intros Hall Hreach.
  apply (reachable_shows_state animations Game.frameDurations); [done|].
  by destruct (reachable_inv _ _ _ Hreach).
Qed.

Lemma animation_follows_state_witness :
  AnimationPlayer.current (Game.anim kick_ticked.1) = "kick" ∧
  AnimationPlayer.loop (Game.anim kick_ticked.1) = false.
Proof.
  refine (animation_follows_state loading_document loaded_animations
            kick_ticked.1 _ kick_ticked_reachable).
  intros s Hs. apply all_loaded_is_Some; [apply loaded_animations_all|exact Hs].
Defined.

Lemma tick_draws fuel ts v g g' calls :
  Game._tick fuel ts v g = Some (g', calls) →
  ∃ updates,
    calls = updates
            ++ [Game.CallResize;
                Game.CallDraw
                  (Renderer.mkSprite (AnimationPlayer.getFrame (Game.anim g'))
                     (PlayerController.x (Game.player g'))
                     (PlayerController.y (Game.player g')))].
Proof.
  unfold Game._tick. intros H.
  destruct (Game.fixedUpdates _ _ _) as [[g2 updates]|]; [|done].
  cbn in H. exists updates.
  destruct (Qle_bool _ _); by injection H as <- <-.
Qed.

(** X23: Once every animation is loaded, every tick draws an image: the
    sprite handed to [draw] carries the frame at the frame index of the
    animation of the state in which the tick leaves the player, never
    [null] or [undefined]. *)
Theorem tick_draws_a_frame (d : gmap string string)
    (animations : gmap string (list Image)) (fuel : nat) (ts : Q)
    (v : Renderer.Viewport) (g g' : Game.t) (calls : list Game.Call) :
  all_loaded animations →
  game_reachable d animations g →
  Game._tick fuel ts v g = Some (g', calls) →
  ∃ frames img updates,
    animations !! PlayerController.state (Game.player g') = Some frames ∧
    frames !! AnimationPlayer.frameIndex (Game.anim g') = Some img ∧
    calls = updates
            ++ [Game.CallResize;
                Game.CallDraw
                  (Renderer.mkSprite (Frame img)
                     (PlayerController.x (Game.player g')) 0)].
Proof.
  intros Hall Hreach Htick.
  assert (Hreach' : game_reachable d animations g') by (eapply game_tick; eauto).
  destruct (reachable_inv _ _ _ Hreach') as [_ _ _ Hp _ _ _ _ _ (_ & _ & Hy)].
  destruct (reachable_frame _ _ _ Hall Hp) as (frames & img & Hf & Hi & Hg).
  destruct (tick_draws _ _ _ _ _ _ Htick) as (updates & ->).
  exists frames, img, updates. split_and!; [done..|].
  unfold Game.anim. by rewrite Hg, Hy.
Qed.

Lemma tick_draws_a_frame_witness :
  ∃ frames img updates,
    loaded_animations
      !! PlayerController.state (Game.player kick_ticked.1) = Some frames ∧
    frames !! AnimationPlayer.frameIndex (Game.anim kick_ticked.1) = Some img ∧
    kick_ticked.2
    = updates
      ++ [Game.CallResize;
          Game.CallDraw
            (Renderer.mkSprite (Frame img)
               (PlayerController.x (Game.player kick_ticked.1)) 0)].
Proof.
  apply (tick_draws_a_frame loading_document loaded_animations 3 50
           sample_viewport kick_pressed).
  - apply loaded_animations_all.
  - apply kick_pressed_reachable.
  - vm_compute. reflexivity.
Defined.

(** * The progress shown while loading *)







(** * The loops of a tick *)
















